(** * Bracket derivation of the NBA playoff predictor

    A shallow embedding of
    - [lib/teams-config.ts]: [MatchupData], [initialBracket],
      [updateBracketStructure], [nbaTeams], [updatePlayoffTeams];
    - [components/playoff-bracket.tsx]: the derivation performed by the
      [useEffect] of [PlayoffBracket], [hasChampion], and the [Matchup]
      component with its click handlers;
    - the persistence module: [saveUserPredictions] up to the database
      calls, and [mapToRecord];
    - the server action [savePredictionsAction];
    - the page [BracketsPage]: its state, [handlePredictionChange],
      [handleSubmit], the submit button, [getConfettiColors] and
      [championName];
    - the page [SummaryPage]: [isValidTeamKey].

    JavaScript objects used as dictionaries are finite maps with string
    keys.  A value of type [string | null] is an [option string], [None]
    standing for [null]. *)

From stdpp Require Import gmap strings list fin_maps.

Open Scope string_scope.

(** ** JavaScript values and control *)

(** The derivation has no [throw] of its own; the only way it could fail is a
    property access on [undefined]. *)
Inductive JsError : Type :=
  | TypeError.

Inductive Outcome (A : Type) : Type :=
  | Return (a : A)
  | Throw (e : JsError).

Arguments Return {A} a.
Arguments Throw {A} e.

Definition bind {A B : Type} (c : Outcome A) (k : A → Outcome B) : Outcome B :=
  match c with
  | Return a => k a
  | Throw e => Throw e
  end.

Notation "x ←! c ; k" := (bind c (λ x, k))
  (at level 20, c at level 100, k at level 200, right associativity,
   only parsing).

(** [!!v] for a [string | null] (or absent) value: [null], [undefined] and the
    empty string are falsy, every other string is truthy. *)
Definition truthy (v : option string) : bool :=
  match v with
  | Some s => negb (String.eqb s "")
  | None => false
  end.

(** ** lib/teams-config.ts *)

(** ["team1" | "team2"] *)
Inductive Position : Type :=
  | at_team1
  | at_team2.

#[global] Instance Position_eq_dec : EqDecision Position.
Proof. solve_decision. Defined.

Record MatchupData : Type := mkMatchup {
  round : Z;
  matchupId : string;
  team1 : option string;
  team2 : option string;
  nextMatchup : option string;
  winnerPosition : option Position;
}.

#[global] Instance MatchupData_eq_dec : EqDecision MatchupData.
Proof. solve_decision. Defined.

(** [matchup.team1 = w] and [matchup.team2 = w] *)
Definition set_team1 (w : option string) (m : MatchupData) : MatchupData :=
  mkMatchup (round m) (matchupId m) w (team2 m) (nextMatchup m)
    (winnerPosition m).

Definition set_team2 (w : option string) (m : MatchupData) : MatchupData :=
  mkMatchup (round m) (matchupId m) (team1 m) w (nextMatchup m)
    (winnerPosition m).

(** Reading the slot named by a position. *)
Definition slot (s : Position) (m : MatchupData) : option string :=
  match s with
  | at_team1 => team1 m
  | at_team2 => team2 m
  end.

Definition set_slot (s : Position) (w : option string) (m : MatchupData)
  : MatchupData :=
  match s with
  | at_team1 => set_team1 w m
  | at_team2 => set_team2 w m
  end.

(** [BracketStructure = Record<BracketKey, MatchupData>] *)
Abbreviation BracketStructure := (gmap string MatchupData).

Definition initialBracket_entries : list (string * MatchupData) :=
  [ ("E1", mkMatchup 1 "E1" (Some "BOS") (Some "MIA") (Some "E5") (Some at_team1));
    ("E2", mkMatchup 1 "E2" (Some "CLE") (Some "ORL") (Some "E5") (Some at_team2));
    ("E3", mkMatchup 1 "E3" (Some "MIL") (Some "IND") (Some "E6") (Some at_team1));
    ("E4", mkMatchup 1 "E4" (Some "NYK") (Some "PHI") (Some "E6") (Some at_team2));
    ("W1", mkMatchup 1 "W1" (Some "OKC") (Some "NOP") (Some "W5") (Some at_team1));
    ("W2", mkMatchup 1 "W2" (Some "LAC") (Some "DAL") (Some "W5") (Some at_team2));
    ("W3", mkMatchup 1 "W3" (Some "MIN") (Some "PHX") (Some "W6") (Some at_team1));
    ("W4", mkMatchup 1 "W4" (Some "DEN") (Some "LAL") (Some "W6") (Some at_team2));
    ("E5", mkMatchup 2 "E5" None None (Some "E7") (Some at_team1));
    ("E6", mkMatchup 2 "E6" None None (Some "E7") (Some at_team2));
    ("W5", mkMatchup 2 "W5" None None (Some "W7") (Some at_team1));
    ("W6", mkMatchup 2 "W6" None None (Some "W7") (Some at_team2));
    ("E7", mkMatchup 3 "E7" None None (Some "F1") (Some at_team1));
    ("W7", mkMatchup 3 "W7" None None (Some "F1") (Some at_team2));
    ("F1", mkMatchup 4 "F1" None None None None) ].

Definition initialBracket : BracketStructure :=
  list_to_map initialBracket_entries.

(** [{ ...currentBracket, ...newBracketData }]: the keys of the second object
    win.  There is no validation and no [throw] in the function. *)
Definition updateBracketStructure
    (currentBracket newBracketData : BracketStructure)
  : Outcome BracketStructure :=
  Return (newBracketData ∪ currentBracket).

(** ** Property reads on a bracket object *)

(** [initialBracket] and the clone made by [JSON.parse] are plain objects:
    [obj[key]] finds own properties first and then the members of
    [Object.prototype], which are functions (or, for [__proto__], the
    prototype object itself): truthy values without any of the fields of a
    matchup. *)
Definition objectPrototypeKeys : list string :=
  [ "constructor"; "hasOwnProperty"; "isPrototypeOf"; "propertyIsEnumerable";
    "toLocaleString"; "toString"; "valueOf"; "__proto__";
    "__defineGetter__"; "__defineSetter__"; "__lookupGetter__";
    "__lookupSetter__" ].

Inductive PropertyRead : Type :=
  | Undefined
  | Inherited
  | Own (m : MatchupData).

Definition getProperty (obj : BracketStructure) (key : string) : PropertyRead :=
  match obj !! key with
  | Some m => Own m
  | None =>
      if bool_decide (key ∈ objectPrototypeKeys) then Inherited else Undefined
  end.

Definition truthyRead (r : PropertyRead) : bool :=
  match r with
  | Undefined => false
  | Inherited | Own _ => true
  end.

(** [r.nextMatchup] and [r.winnerPosition]: a [TypeError] on [undefined],
    [undefined] (falsy, rendered [None]) on a prototype member. *)
Definition read_nextMatchup (r : PropertyRead) : Outcome (option string) :=
  match r with
  | Undefined => Throw TypeError
  | Inherited => Return None
  | Own m => Return (nextMatchup m)
  end.

Definition read_winnerPosition (r : PropertyRead)
  : Outcome (option Position) :=
  match r with
  | Undefined => Throw TypeError
  | Inherited => Return None
  | Own m => Return (winnerPosition m)
  end.

(** [nextMatchup.team1 = w] where [nextMatchup = newBracket[key]]: the object
    stored under [key] is mutated in place.  A write to a prototype member
    leaves the bracket itself as it is. *)
Definition assign_slot (s : Position) (newBracket : BracketStructure)
    (key : string) (target : PropertyRead) (w : option string)
  : Outcome BracketStructure :=
  match target with
  | Undefined => Throw TypeError
  | Inherited => Return newBracket
  | Own m => Return (<[key := set_slot s w m]> newBracket)
  end.

(** ** components/playoff-bracket.tsx *)

(** A prediction object: matchup id to winner.  The declared value type is
    [string]; the component casts it to [NbaTeamKey | null]. *)
Abbreviation Predictions := (gmap string (option string)).

(** The callback passed to [forEach], with [newBracket] threaded through. *)
Definition forEachCallback (newBracket : BracketStructure)
    (entry : string * option string) : Outcome BracketStructure :=
  let '(matchupId, winningTeamId) := entry in
  let originalMatchup := getProperty initialBracket matchupId in
  if negb (truthyRead originalMatchup) || negb (truthy winningTeamId)
  then Return newBracket
  else
    next ←! read_nextMatchup originalMatchup;
    if truthy next then
      match next with
      | None => Return newBracket
      | Some nextMatchupId =>
          let nextMatchup := getProperty newBracket nextMatchupId in
          if truthyRead nextMatchup then
            positionToUpdate ←! read_winnerPosition originalMatchup;
            match positionToUpdate with
            | Some at_team1 =>
                assign_slot at_team1 newBracket nextMatchupId nextMatchup
                  winningTeamId
            | Some at_team2 =>
                assign_slot at_team2 newBracket nextMatchupId nextMatchup
                  winningTeamId
            | None => Return newBracket
            end
          else Return newBracket
      end
    else Return newBracket.

Fixpoint forEach (entries : list (string * option string))
    (newBracket : BracketStructure) : Outcome BracketStructure :=
  match entries with
  | [] => Return newBracket
  | entry :: rest =>
      b ←! forEachCallback newBracket entry;
      forEach rest b
  end.

(** [JSON.parse(JSON.stringify(initialBracket))]: every field is a number, a
    string or [null], so the clone has the same contents; being a fresh
    object, later writes never reach [initialBracket]. *)
Definition deepClone (b : BracketStructure) : BracketStructure := b.

(** The body of the effect, for a given enumeration of the entries of
    [predictions]. *)
Definition deriveEntries (entries : list (string * option string))
  : Outcome BracketStructure :=
  forEach entries (deepClone initialBracket).

(** [Object.entries(predictions)] lists every own entry once, in the key
    order of the object; [map_to_list] is one such enumeration, and by
    [deriveEntries_closed] every other one returns the same bracket. *)
Definition derive (predictions : Predictions) : Outcome BracketStructure :=
  deriveEntries (map_to_list predictions).

(** One run of the effect: the component state [bracket] is replaced by the
    freshly derived bracket ([setBracket(newBracket)]). *)
Definition runEffect (bracket : BracketStructure) (predictions : Predictions)
  : Outcome BracketStructure :=
  newBracket ←! derive predictions;
  Return newBracket.

(** [const hasChampion = !!predictions["F1"] || false] *)
Definition hasChampion (predictions : Predictions) : bool :=
  match predictions !! "F1" with
  | Some w => truthy w
  | None => false
  end.

(** ** The persistence module *)

(** [const champion = (userPredictions.F1 as NbaTeamKey) || null] in
    [saveUserPredictions]. *)
Definition champion (userPredictions : Predictions) : option string :=
  match userPredictions !! "F1" with
  | Some w => if truthy w then w else None
  | None => None
  end.

(** ** The page [BracketsPage] *)

(** [{ ...prev, [matchupId]: teamId }] in [handlePredictionChange]. *)
Definition handlePredictionChange (prev : Predictions) (matchupId teamId : string)
  : Predictions :=
  <[matchupId := Some teamId]> prev.


(** ** lib/teams-config.ts: the roster *)

(** ["East" | "West"] *)
Inductive Conference : Type :=
  | East
  | West.

#[global] Instance Conference_eq_dec : EqDecision Conference.
Proof. solve_decision. Defined.

(** [NBATeam], without its [logo]: a React component, which carries no
    data. *)
Module NBATeam.
Record t : Type := mk {
  id : string;
  name : string;
  conference : Conference;
  seed : Z;
  primaryColor : string;
  secondaryColor : string;
}.
End NBATeam.

(** [NbaTeamsStructure = Record<NbaTeamKey, NBATeam>] *)
Abbreviation NbaTeamsStructure := (gmap string NBATeam.t).

Definition nbaTeams_entries : list (string * NBATeam.t) :=
  [ ("BOS", NBATeam.mk "BOS" "Boston Celtics" East 1 "#007A33" "#BA9653");
    ("NYK", NBATeam.mk "NYK" "New York Knicks" East 2 "#F58426" "#006BB6");
    ("MIL", NBATeam.mk "MIL" "Milwaukee Bucks" East 3 "#00471B" "#EEE1C6");
    ("CLE", NBATeam.mk "CLE" "Cleveland Cavaliers" East 4 "#860038" "#041E42");
    ("ORL", NBATeam.mk "ORL" "Orlando Magic" East 5 "#0077C0" "#C4CED4");
    ("IND", NBATeam.mk "IND" "Indiana Pacers" East 6 "#002D62" "#FDBB30");
    ("PHI", NBATeam.mk "PHI" "Philadelphia 76ers" East 7 "#006BB6" "#ED174C");
    ("MIA", NBATeam.mk "MIA" "Miami Heat" East 8 "#98002E" "#F9A01B");
    ("OKC", NBATeam.mk "OKC" "Oklahoma City Thunder" West 1 "#007AC1" "#EF3B24");
    ("DEN", NBATeam.mk "DEN" "Denver Nuggets" West 2 "#0E2240" "#FEC524");
    ("MIN", NBATeam.mk "MIN" "Minnesota Timberwolves" West 3 "#0C2340" "#78BE20");
    ("LAC", NBATeam.mk "LAC" "Los Angeles Clippers" West 4 "#C8102E" "#1D428A");
    ("DAL", NBATeam.mk "DAL" "Dallas Mavericks" West 5 "#00538C" "#B8C4CA");
    ("PHX", NBATeam.mk "PHX" "Phoenix Suns" West 6 "#1D1160" "#E56020");
    ("LAL", NBATeam.mk "LAL" "Los Angeles Lakers" West 7 "#552583" "#FDB927");
    ("NOP", NBATeam.mk "NOP" "New Orleans Pelicans" West 8 "#0C2340" "#C8102E") ].

Definition nbaTeams : NbaTeamsStructure := list_to_map nbaTeams_entries.

(** [{ ...currentTeams, ...newTeams }] *)
Definition updatePlayoffTeams (currentTeams newTeams : NbaTeamsStructure)
  : NbaTeamsStructure :=
  newTeams ∪ currentTeams.

(** [nbaTeams[key]]: an own entry, a member of [Object.prototype], or
    [undefined]. *)
Inductive TeamRead : Type :=
  | NoTeam
  | InheritedMember
  | OwnTeam (team : NBATeam.t).

Definition getTeam (key : string) : TeamRead :=
  match nbaTeams !! key with
  | Some team => OwnTeam team
  | None =>
      if bool_decide (key ∈ objectPrototypeKeys) then InheritedMember
      else NoTeam
  end.

(** [Object.prototype.hasOwnProperty.call(nbaTeams, key)] *)
Definition hasOwnTeam (key : string) : bool :=
  bool_decide (is_Some (nbaTeams !! key)).

(** ** components/playoff-bracket.tsx: the [Matchup] component *)

(** [matchup.team1 ? nbaTeams[matchup.team1] : undefined] *)
Definition teamDataOf (team : option string) : TeamRead :=
  match team with
  | Some key => if truthy team then getTeam key else NoTeam
  | None => NoTeam
  end.

Definition truthyTeam (r : TeamRead) : bool :=
  match r with
  | NoTeam => false
  | InheritedMember | OwnTeam _ => true
  end.

(** What a slot shows: the team when [teamData && TeamLogoComponent] holds
    (a prototype member has no [logo]), the text TBD otherwise. *)
Inductive SlotDisplay : Type :=
  | ShowTBD
  | ShowTeam (team : NBATeam.t).

Definition displayOf (r : TeamRead) : SlotDisplay :=
  match r with
  | OwnTeam team => ShowTeam team
  | NoTeam | InheritedMember => ShowTBD
  end.

(** One of the two slots of a rendered card: what it shows, whether the
    class for a present team ([cursor-pointer]) is applied, and whether it is
    styled as the selected team ([selectedTeam === matchup.team1]). *)
Record SlotView : Type := mkSlotView {
  display : SlotDisplay;
  present : bool;
  selected : bool;
}.

Inductive MatchupView : Type :=
  | MatchupTBD
  | MatchupCard (slot1 slot2 : SlotView).

(** [selectedTeam === matchup.team1], where [selectedTeam] is
    [predictions[key]]: [undefined] when there is no entry. *)
Definition isSelected (selectedTeam : option (option string))
    (team : option string) : bool :=
  match selectedTeam with
  | Some w => bool_decide (w = team)
  | None => false
  end.

Definition Matchup_render (matchup : MatchupData)
    (selectedTeam : option (option string)) : MatchupView :=
  let team1Data := teamDataOf (team1 matchup) in
  let team2Data := teamDataOf (team2 matchup) in
  if negb (truthyTeam team1Data) && negb (truthyTeam team2Data)
  then MatchupTBD
  else
    MatchupCard
      (mkSlotView (displayOf team1Data) (truthy (team1 matchup))
         (isSelected selectedTeam (team1 matchup)))
      (mkSlotView (displayOf team2Data) (truthy (team2 matchup))
         (isSelected selectedTeam (team2 matchup))).

(** A click on slot [s] of the component: the call
    [onTeamSelect(matchup.matchupId, matchup.team1)] it makes, if any.  The
    handlers exist on a rendered card only and are guarded by
    [if (matchup.team1)]. *)
Definition Matchup_onClick (matchup : MatchupData) (s : Position)
  : option (string * string) :=
  let team1Data := teamDataOf (team1 matchup) in
  let team2Data := teamDataOf (team2 matchup) in
  if negb (truthyTeam team1Data) && negb (truthyTeam team2Data)
  then None
  else
    match slot s matchup with
    | Some teamId =>
        if truthy (Some teamId) then Some (matchupId matchup, teamId) else None
    | None => None
    end.

(** The matchups [PlayoffBracket] renders, in the order of the JSX. *)
Definition renderedMatchups : list string :=
  [ "E1"; "E2"; "E3"; "E4"; "E5"; "E6"; "E7"; "F1"; "W7"; "W5"; "W6";
    "W1"; "W2"; "W3"; "W4" ].

(** ** The persistence module: [mapToRecord] and the saved document *)

(** The [predictions] field of a document read back: a [Map], a plain
    object (after [lean()]), or [null] / [undefined]. *)
Inductive PredictionsField : Type :=
  | FieldMap (entries : list (string * string))
  | FieldObject (record : gmap string string)
  | FieldNullish.

(** [map.set(key, value)] on a [Map] kept as its entries in insertion order:
    an existing key keeps its place. *)
Fixpoint Map_set {V : Type} (key : string) (value : V)
    (entries : list (string * V)) : list (string * V) :=
  match entries with
  | [] => [(key, value)]
  | (k, v) :: rest =>
      if decide (k = key) then (k, value) :: rest
      else (k, v) :: Map_set key value rest
  end.

(** [new Map(iterable)] *)
Definition newMap {V : Type} (iterable : list (string * V))
  : list (string * V) :=
  foldl (λ m e, Map_set e.1 e.2 m) [] iterable.

(** [record[key] = value] on a plain object without an own [__proto__], for
    a string [value]: the key [__proto__] reaches the setter of
    [Object.prototype], which ignores a value that is neither an object nor
    [null]; any other key becomes an own property. *)
Definition assignProperty (record : gmap string string) (key value : string)
  : gmap string string :=
  if decide (key = "__proto__") then record else <[key := value]> record.

Definition mapToRecord (map : PredictionsField) : gmap string string :=
  match map with
  | FieldMap entries =>
      foldl (λ record e, assignProperty record e.1 e.2) ∅ entries
  | FieldObject record => record
  | FieldNullish => ∅
  end.

(** The document [saveUserPredictions] builds before [prediction.save()]. *)
Module Prediction.
Record t : Type := mk {
  userId : string;
  predictions : list (string * option string);
  champion : option string;
}.
End Prediction.

(** [saveUserPredictions], up to the database: [save] stands for
    [connectDB()] followed by [prediction.save()], and answers whether they
    resolved ([true]) or threw ([false]). *)
Definition saveUserPredictions (save : Prediction.t → bool)
    (userId : string) (userPredictions : Predictions) : bool :=
  let champion := champion userPredictions in
  let predictionsMap := newMap (map_to_list userPredictions) in
  save (Prediction.mk userId predictionsMap champion).

(** ** The server actions *)

Record ActionResult : Type := mkActionResult {
  success : bool;
  error : option string;
}.

Definition savePredictionsAction (save : Prediction.t → bool)
    (userId : string) (predictions : Predictions) : ActionResult :=
  if negb (truthy (Some userId)) || (size predictions =? 0)%nat
  then mkActionResult false (Some "Invalid data provided.")
  else if saveUserPredictions save userId predictions
  then mkActionResult true None
  else mkActionResult false
         (Some "Failed to save predictions. Please try again.").

(** ** The page [BracketsPage]: state and handlers *)

(** The state of the page.  [showConfetti] is left out: it is set by a timer
    and read by the confetti effect only. *)
Record BracketsPageState : Type := mkPageState {
  userId : option string;
  predictions : Predictions;
  isSubmitting : bool;
  championSelected : bool;
  serverError : option string;
}.

(** The state after mounting, [storedUserId] being what [localStorage] holds
    under [userId]. *)
Definition initialPageState (storedUserId : option string)
  : BracketsPageState :=
  mkPageState (if truthy storedUserId then storedUserId else None) ∅ false
    false None.

(** The whole of [handlePredictionChange]: the new prediction object and,
    for [F1], [setChampionSelected(true)]. *)
Definition onPredictionChange (st : BracketsPageState)
    (matchupId teamId : string) : BracketsPageState :=
  mkPageState (userId st)
    (handlePredictionChange (predictions st) matchupId teamId)
    (isSubmitting st)
    (if decide (matchupId = "F1") then true else championSelected st)
    (serverError st).

(** A click on slot [s] of the [Matchup] rendered for [key].  The component
    is given [getMatchup(key)], read from the state [bracket], which the
    effect has set to the bracket derived from the current predictions. *)
Definition clickTeam (st : BracketsPageState) (key : string) (s : Position)
  : BracketsPageState :=
  if bool_decide (key ∈ renderedMatchups) then
    match derive (predictions st) with
    | Return bracket =>
        match bracket !! key with
        | Some matchup =>
            match Matchup_onClick matchup s with
            | Some (matchupId, teamId) => onPredictionChange st matchupId teamId
            | None => st
            end
        | None => st
        end
    | Throw _ => st
    end
  else st.

(** The view of the matchup [key]. *)
Definition viewOf (st : BracketsPageState) (key : string)
  : option MatchupView :=
  match derive (predictions st) with
  | Return bracket =>
      match bracket !! key with
      | Some matchup => Some (Matchup_render matchup (predictions st !! key))
      | None => None
      end
  | Throw _ => None
  end.

(** How a call of [handleSubmit] ends. *)
Inductive SubmitResult : Type :=
  | Refused
  | Pushed_summary
  | ActionFailed.

Definition handleSubmit (save : Prediction.t → bool)
    (st : BracketsPageState) : BracketsPageState * SubmitResult :=
  let refuse message :=
    (mkPageState (userId st) (predictions st) (isSubmitting st)
       (championSelected st) (Some message), Refused) in
  match userId st with
  | None => refuse "User not identified. Please go back and register."
  | Some uid =>
      if negb (truthy (userId st)) then
        refuse "User not identified. Please go back and register."
      else if (size (predictions st) <? 15)%nat then
        refuse "Please complete all matchups before submitting."
      else if negb (hasChampion (predictions st)) then
        refuse "Please select a champion (winner of F1) before submitting."
      else
        let result := savePredictionsAction save uid (predictions st) in
        if success result then
          (mkPageState (userId st) (predictions st) true
             (championSelected st) None,
           Pushed_summary)
        else
          (mkPageState (userId st) (predictions st) false
             (championSelected st)
             (if truthy (error result) then error result
              else Some "An unknown error occurred while saving."),
           ActionFailed)
  end.

(** The submit button is rendered with
    [disabled={isSubmitting || !championSelected ||
               Object.keys(predictions).length < 15}]. *)
Definition submitDisabled (st : BracketsPageState) : bool :=
  isSubmitting st || negb (championSelected st)
  || (size (predictions st) <? 15)%nat.

(** [getConfettiColors] of the page. *)
Definition getConfettiColors (st : BracketsPageState) : option (list string) :=
  match predictions st !! "F1" with
  | Some (Some championTeamId) =>
      if truthy (Some championTeamId) && hasOwnTeam championTeamId then
        match nbaTeams !! championTeamId with
        | Some team =>
            Some [NBATeam.primaryColor team; NBATeam.secondaryColor team;
                  "#FFD700"; "#FFFFFF"]
        | None => None
        end
      else None
  | _ => None
  end.

(** [championName] of the page. *)
Definition championName (st : BracketsPageState) : string :=
  match predictions st !! "F1" with
  | Some (Some championTeamId) =>
      if truthy (Some championTeamId) && hasOwnTeam championTeamId then
        match nbaTeams !! championTeamId with
        | Some team => NBATeam.name team
        | None => "a champion"
        end
      else "a champion"
  | _ => "a champion"
  end.

(** ** The page [SummaryPage] *)

(** [isValidTeamKey] *)
Definition isValidTeamKey (key : option string) : bool :=
  match key with
  | Some k => if truthy key then hasOwnTeam k else false
  | None => false
  end.

(** * Specification vocabulary

    Definitions used to state and prove the properties; none of them is part
    of the program. *)

(** [feeds N s e]: the matchup [e] of the template sends its winner to slot
    [s] of matchup [N]. *)
Definition feeds (N : string) (s : Position) (e : string * MatchupData) : bool :=
  bool_decide (nextMatchup e.2 = Some N ∧ winnerPosition e.2 = Some s).

(** The first matchup of the template that feeds slot [s] of [N] (the only
    one, by [feeder_complete]). *)
Definition feeder (N : string) (s : Position) : option string :=
  fst <$> find (feeds N s) initialBracket_entries.

(** The slot an entry writes to, if any. *)
Definition target (entry : string * option string) : option (string * Position) :=
  if truthy entry.2 then
    match initialBracket !! entry.1 with
    | Some m =>
        match nextMatchup m, winnerPosition m with
        | Some N, Some s => Some (N, s)
        | _, _ => None
        end
    | None => None
    end
  else None.

(** The callback without its control flow: one slot is overwritten, or
    nothing happens ([forEachCallback_applyEntry]). *)
Definition applyEntry (b : BracketStructure) (entry : string * option string)
  : BracketStructure :=
  match target entry with
  | Some (N, s) => alter (set_slot s entry.2) N b
  | None => b
  end.

(** What an entry does to the matchup stored under key [k]. *)
Definition touch (k : string) (entry : string * option string)
    (m : MatchupData) : MatchupData :=
  match target entry with
  | Some (N, s) => if decide (N = k) then set_slot s entry.2 m else m
  | None => m
  end.

(** What a list of entries does to it, first entry first. *)
Definition touchAll (k : string) (entries : list (string * option string))
    (m : MatchupData) : MatchupData :=
  foldl (λ m e, touch k e m) m entries.

(** Two matchups with the same fields apart from the two slots. *)
Definition sameTopology (m n : MatchupData) : Prop :=
  round m = round n ∧ matchupId m = matchupId n ∧
  nextMatchup m = nextMatchup n ∧ winnerPosition m = winnerPosition n.

(** The value of slot [s] of matchup [N]: the winner picked for the matchup
    feeding that slot when there is a truthy one, the template's value [init]
    otherwise. *)
Definition propagated (P : Predictions) (N : string) (s : Position)
    (init : option string) : option string :=
  match feeder N s with
  | Some M =>
      match P !! M with
      | Some w => if truthy w then w else init
      | None => init
      end
  | None => init
  end.

(** The template matchup [m] stored under [N], with both slots propagated. *)
Definition propagate (P : Predictions) (N : string) (m : MatchupData)
  : MatchupData :=
  set_team2 (propagated P N at_team2 (team2 m))
    (set_team1 (propagated P N at_team1 (team1 m)) m).

(** The derived bracket in closed form ([derive_closed]). *)
Definition derivedBracket (P : Predictions) : BracketStructure :=
  map_imap (λ N m, Some (propagate P N m)) initialBracket.

(** [entries] enumerates the prediction object [P]. *)
Definition enumerates (entries : list (string * option string))
    (P : Predictions) : Prop :=
  NoDup entries.*1 ∧ ∀ M w, (M, w) ∈ entries ↔ P !! M = Some w.

(** The effective pick for a matchup: the winner when the entry is present and
    truthy, nothing otherwise. *)
Definition pick (P : Predictions) (M : string) : option string :=
  match P !! M with
  | Some w => if truthy w then w else None
  | None => None
  end.

(** The template's matchups [E1], [E5] and [F1]. *)
Definition matchup_E1 : MatchupData :=
  mkMatchup 1 "E1" (Some "BOS") (Some "MIA") (Some "E5") (Some at_team1).

Definition matchup_E5 : MatchupData :=
  mkMatchup 2 "E5" None None (Some "E7") (Some at_team1).

Definition matchup_F1 : MatchupData :=
  mkMatchup 4 "F1" None None None None.

(** Prediction objects and matchups used as concrete inputs. *)
Definition picks_E1_empty : Predictions := {[ "E1" := Some "" ]}.

Definition picks_E1_E2 : Predictions :=
  {[ "E1" := Some "MIA"; "E2" := Some "CLE" ]}.

(** A patch that wires [E2] to the slot [E1] already feeds. *)
Definition duplicateTargetPatch : BracketStructure :=
  {[ "E2" := mkMatchup 1 "E2" (Some "CLE") (Some "ORL") (Some "E5")
               (Some at_team1) ]}.

Definition picks_F1_empty : Predictions := {[ "F1" := Some "" ]}.

Definition picks_E7_F1 : Predictions :=
  {[ "E7" := Some "BOS"; "F1" := Some "BOS" ]}.

Definition picks_E1_E5 : Predictions :=
  {[ "E1" := Some "MIA"; "E5" := Some "MIA" ]}.

(** [contender t k]: the team [t] can reach the matchup [k], being a seed of
    [k] in the template or a contender of a matchup that feeds [k]. *)
Inductive contender : string → string → Prop :=
  | contender_seed (k : string) (m : MatchupData) (s : Position) (t : string) :
      initialBracket !! k = Some m → slot s m = Some t → contender t k
  | contender_advance (M : string) (m : MatchupData) (N t : string) :
      initialBracket !! M = Some m → nextMatchup m = Some N →
      contender t M → contender t N.

(** The conference under whose heading [PlayoffBracket] lays a matchup out;
    the final belongs to neither. *)
Definition sideOf (key : string) : option Conference :=
  if bool_decide (key ∈ ["E1"; "E2"; "E3"; "E4"; "E5"; "E6"; "E7"])
  then Some East
  else if bool_decide (key ∈ ["W1"; "W2"; "W3"; "W4"; "W5"; "W6"; "W7"])
  then Some West
  else None.

(** What the user can do on the page: click a team, or click the submit
    button, in which case [saveResolves] tells whether the database calls
    resolve. *)
Inductive PageEvent : Type :=
  | ClickTeam (key : string) (s : Position)
  | ClickSubmit (saveResolves : bool).

Definition pageStep (st : BracketsPageState) (ev : PageEvent)
  : BracketsPageState :=
  match ev with
  | ClickTeam key s => clickTeam st key s
  | ClickSubmit saveResolves =>
      if submitDisabled st then st
      else (handleSubmit (λ _, saveResolves) st).1
  end.

Definition pageRun (st : BracketsPageState) (evs : list PageEvent)
  : BracketsPageState :=
  foldl pageStep st evs.

(** Every pick is a non-null team that is a contender of its matchup. *)
Definition wellPicked (P : Predictions) : Prop :=
  ∀ k w, P !! k = Some w → ∃ t, w = Some t ∧ contender t k.

(** The other slot. *)
Definition otherPosition (s : Position) : Position :=
  match s with
  | at_team1 => at_team2
  | at_team2 => at_team1
  end.

(** States and events used as concrete inputs. *)
Definition state_after_E1 : BracketsPageState :=
  pageRun (initialPageState (Some "u1")) [ClickTeam "E1" at_team2].

Definition fullRun : list PageEvent :=
  [ ClickTeam "E1" at_team1; ClickTeam "E2" at_team1; ClickTeam "E3" at_team1;
    ClickTeam "E4" at_team1; ClickTeam "W1" at_team1; ClickTeam "W2" at_team1;
    ClickTeam "W3" at_team1; ClickTeam "W4" at_team1; ClickTeam "E5" at_team1;
    ClickTeam "E6" at_team2; ClickTeam "W5" at_team1; ClickTeam "W6" at_team2;
    ClickTeam "E7" at_team1; ClickTeam "W7" at_team2; ClickTeam "F1" at_team1 ].

(** What the clicks keep true of the page. *)
Definition pageInv (st : BracketsPageState) : Prop :=
  wellPicked (predictions st) ∧
  championSelected st = hasChampion (predictions st) ∧
  (userId st = None ∨ truthy (userId st) = true).

(** The view of slot [s] of a rendered card. *)
Definition slotView (v : MatchupView) (s : Position) : option SlotView :=
  match v, s with
  | MatchupTBD, _ => None
  | MatchupCard slot1 _, at_team1 => Some slot1
  | MatchupCard _ slot2, at_team2 => Some slot2
  end.

(** The prediction objects and the record used as concrete inputs. *)
Definition picks_repicked : Predictions :=
  {[ "E1" := Some "BOS"; "E5" := Some "BOS" ]}.

Definition record_with_proto : gmap string string :=
  {[ "E1" := "BOS"; "__proto__" := "MIA" ]}.

(** * Properties *)

#[global] Arguments initialBracket : simpl never.
#[global] Arguments initialBracket_entries : simpl never.

(** ** The template [initialBracket] *)

Lemma initialBracket_elem (k : string) (m : MatchupData) :
  initialBracket !! k = Some m → (k, m) ∈ initialBracket_entries.
Proof. apply elem_of_list_to_map_2. Qed.

(** Case analysis over the fifteen matchups of the template. *)
Ltac matchup_cases H :=
  apply initialBracket_elem in H;
  unfold initialBracket_entries in H;
  repeat (apply elem_of_cons in H as [H|H]; [injection H as -> ->|]);
  [..|by apply elem_of_nil in H].

Lemma feeder_complete (k : string) (m : MatchupData) (N : string) (s : Position) :
  initialBracket !! k = Some m →
  nextMatchup m = Some N → winnerPosition m = Some s →
  feeder N s = Some k.
Proof.
  intros Hk HN Hs. matchup_cases Hk; simpl in HN, Hs;
    first [discriminate HN | injection HN as <-; injection Hs as <-; reflexivity].
Qed.

Lemma feeder_sound (N : string) (s : Position) (k : string) :
  feeder N s = Some k →
  ∃ m, initialBracket !! k = Some m ∧
       nextMatchup m = Some N ∧ winnerPosition m = Some s.
Proof.
  unfold feeder. destruct (find _ _) as [[k' m]|] eqn:Hfind; [|done].
  intros [= ->]. apply find_some in Hfind as [Hin Hfeeds].
  apply bool_decide_eq_true in Hfeeds as [HN Hs]. simpl in HN, Hs.
  exists m. split; [|done].
  apply list_elem_of_In in Hin. clear HN Hs. unfold initialBracket_entries in Hin.
  repeat (apply elem_of_cons in Hin as [Hin|Hin];
          [injection Hin as -> ->; reflexivity|]).
  by apply elem_of_nil in Hin.
Qed.

(** Every successor is a matchup of the template, one round later, and both
    of its slots are empty there. *)
Lemma next_in_template (k : string) (m : MatchupData) (N : string) :
  initialBracket !! k = Some m → nextMatchup m = Some N →
  truthy (Some N) = true ∧
  ∃ n, initialBracket !! N = Some n ∧ round n = (round m + 1)%Z ∧
       team1 n = None ∧ team2 n = None.
Proof.
  intros Hk HN. matchup_cases Hk; simpl in HN;
    first [discriminate HN | injection HN as <-; split; [reflexivity|];
           eexists; split; [reflexivity|done]].
Qed.

(** A matchup of round 1 is nobody's successor. *)
Lemma round1_not_fed (k : string) (m : MatchupData) (s : Position) :
  initialBracket !! k = Some m → round m = 1%Z → feeder k s = None.
Proof.
  intros Hk Hr. matchup_cases Hk; simpl in Hr; first [discriminate Hr | by destruct s].
Qed.

(** ** The callback as a pure update *)

Lemma forEachCallback_applyEntry (b : BracketStructure)
    (entry : string * option string) :
  forEachCallback b entry = Return (applyEntry b entry).
Proof.
  destruct entry as [M w].
  unfold forEachCallback, applyEntry, target, getProperty. cbn [fst snd].
  destruct (initialBracket !! M) as [m|] eqn:HM.
  - cbn [truthyRead negb orb]. destruct (truthy w) eqn:Hw; [|done].
    cbn [negb read_nextMatchup bind].
    destruct (nextMatchup m) as [N|] eqn:HN; [|done].
    destruct (next_in_template _ _ _ HM HN) as [-> _].
    destruct (winnerPosition m) as [s|] eqn:Hs.
    + rewrite alter_alt. destruct (b !! N) as [n|] eqn:HbN.
      * cbn [truthyRead read_winnerPosition bind]. rewrite Hs. by destruct s.
      * case_bool_decide; [|done].
        cbn [truthyRead read_winnerPosition bind]. rewrite Hs. by destruct s.
    + destruct (b !! N); [|case_bool_decide; [|done]];
        cbn [truthyRead read_winnerPosition bind]; by rewrite Hs.
  - destruct (truthy w); by case_bool_decide.
Qed.

Lemma forEach_foldl (entries : list (string * option string))
    (b : BracketStructure) :
  forEach entries b = Return (foldl applyEntry b entries).
Proof.
  revert b. induction entries as [|e l IH]; intros b; [done|].
  simpl. rewrite forEachCallback_applyEntry. simpl. apply IH.
Qed.

Lemma applyEntry_lookup (b : BracketStructure) (e : string * option string)
    (k : string) :
  applyEntry b e !! k = touch k e <$> b !! k.
Proof.
  unfold applyEntry, touch. destruct (target e) as [[N s]|].
  - rewrite lookup_alter. case_decide as HNk.
    + by subst k.
    + by destruct (b !! k).
  - by destruct (b !! k).
Qed.

Lemma foldl_applyEntry_lookup (entries : list (string * option string))
    (b : BracketStructure) (k : string) :
  foldl applyEntry b entries !! k = touchAll k entries <$> b !! k.
Proof.
  revert b. induction entries as [|e l IH]; intros b; simpl.
  - by destruct (b !! k).
  - rewrite IH, applyEntry_lookup. by destruct (b !! k).
Qed.

Lemma MatchupData_ext (m n : MatchupData) :
  round m = round n → matchupId m = matchupId n →
  team1 m = team1 n → team2 m = team2 n →
  nextMatchup m = nextMatchup n → winnerPosition m = winnerPosition n →
  m = n.
Proof. destruct m, n; simpl; congruence. Qed.

Lemma set_slot_sameTopology (s : Position) (w : option string)
    (m : MatchupData) :
  sameTopology (set_slot s w m) m.
Proof. by destruct s. Qed.

Lemma slot_set_slot (s s' : Position) (w : option string) (m : MatchupData) :
  slot s' (set_slot s w m) = if decide (s = s') then w else slot s' m.
Proof. by destruct s, s'. Qed.

Lemma touch_sameTopology (k : string) (e : string * option string)
    (m : MatchupData) :
  sameTopology (touch k e m) m.
Proof.
  unfold touch. destruct (target e) as [[N s]|]; [|done].
  case_decide; [apply set_slot_sameTopology|done].
Qed.

Lemma touchAll_sameTopology (k : string) (l : list (string * option string))
    (m : MatchupData) :
  sameTopology (touchAll k l m) m.
Proof.
  revert m. induction l as [|e l IH]; intros m; [done|].
  unfold touchAll in *. simpl.
  destruct (IH (touch k e m)) as (?&?&?&?).
  destruct (touch_sameTopology k e m) as (?&?&?&?).
  repeat split; congruence.
Qed.

Lemma touch_slot_miss (k : string) (s : Position)
    (e : string * option string) (m : MatchupData) :
  target e ≠ Some (k, s) → slot s (touch k e m) = slot s m.
Proof.
  unfold touch. destruct (target e) as [[N s']|]; [|done]. intros Hne.
  case_decide as HN; [|done]. subst N.
  rewrite slot_set_slot. case_decide; [congruence|done].
Qed.

Lemma touch_slot_hit (k : string) (s : Position)
    (e : string * option string) (m : MatchupData) :
  target e = Some (k, s) → slot s (touch k e m) = e.2.
Proof.
  unfold touch. intros ->. rewrite decide_True by done.
  rewrite slot_set_slot. by rewrite decide_True.
Qed.

Lemma touchAll_slot_miss (k : string) (s : Position)
    (l : list (string * option string)) (m : MatchupData) :
  (∀ e, e ∈ l → target e ≠ Some (k, s)) →
  slot s (touchAll k l m) = slot s m.
Proof.
  revert m. induction l as [|e l IH]; intros m Hl; [done|].
  unfold touchAll in *. simpl. rewrite IH.
  - apply touch_slot_miss, Hl. by left.
  - intros e' He'. apply Hl. by right.
Qed.

(** An entry that writes to a slot is the entry of the slot's feeder. *)
Lemma target_feeder (M : string) (w : option string) (N : string)
    (s : Position) :
  target (M, w) = Some (N, s) → truthy w = true ∧ feeder N s = Some M.
Proof.
  unfold target. cbn [fst snd]. destruct (truthy w); [|done].
  destruct (initialBracket !! M) as [m|] eqn:HM; [|done].
  destruct (nextMatchup m) as [N'|] eqn:HN; [|done].
  destruct (winnerPosition m) as [s'|] eqn:Hs; [|done].
  intros [= -> ->]. split; [done|]. by eapply feeder_complete.
Qed.

Lemma feeder_target (M : string) (w : option string) (N : string)
    (s : Position) :
  truthy w = true → feeder N s = Some M → target (M, w) = Some (N, s).
Proof.
  intros Hw (m & HM & HN & Hs)%feeder_sound.
  unfold target. cbn [fst snd]. by rewrite Hw, HM, HN, Hs.
Qed.

Lemma touchAll_slot_hit (k : string) (s : Position)
    (l : list (string * option string)) (m : MatchupData)
    (M : string) (w : option string) :
  NoDup l.*1 → (M, w) ∈ l → target (M, w) = Some (k, s) →
  slot s (touchAll k l m) = w.
Proof.
  revert m. induction l as [|e l IH]; intros m Hnd Hin Ht.
  { by apply elem_of_nil in Hin. }
  rewrite fmap_cons in Hnd. apply NoDup_cons in Hnd as [Hfresh Hnd].
  apply elem_of_cons in Hin as [<-|Hin].
  - change (slot s (touchAll k l (touch k (M, w) m)) = w).
    rewrite touchAll_slot_miss.
    + by apply touch_slot_hit.
    + intros [M' w'] He' Ht'.
      apply target_feeder in Ht as [_ HM]. apply target_feeder in Ht' as [_ HM'].
      assert (M' = M) as -> by congruence.
      apply Hfresh. apply list_elem_of_fmap. by exists (M, w').
  - change (slot s (touchAll k l (touch k e m)) = w). by apply IH.
Qed.

(** ** The derived bracket in closed form *)

Lemma derivedBracket_lookup (P : Predictions) (k : string) :
  derivedBracket P !! k = propagate P k <$> initialBracket !! k.
Proof.
  unfold derivedBracket. rewrite map_lookup_imap.
  by destruct (initialBracket !! k).
Qed.

Lemma slot_propagate (P : Predictions) (N : string) (s : Position)
    (m : MatchupData) :
  slot s (propagate P N m) = propagated P N s (slot s m).
Proof. by destruct s. Qed.

Lemma enumerates_permutation (entries : list (string * option string))
    (P : Predictions) :
  entries ≡ₚ map_to_list P → enumerates entries P.
Proof.
  intros Hperm. split.
  - rewrite Hperm. apply NoDup_fst_map_to_list.
  - intros M w. rewrite Hperm. apply elem_of_map_to_list.
Qed.

(** Any enumeration of a prediction object gives the closed form. *)
Section enumeration.
  Variable entries : list (string * option string).
  Variable P : Predictions.
  Hypothesis Henum : enumerates entries P.

Lemma touchAll_slot (k : string) (s : Position) (m : MatchupData) :
  slot s (touchAll k entries m) = propagated P k s (slot s m).
Proof.
  destruct Henum as [Hnd Hin]. unfold propagated.
  assert (∀ M e, feeder k s = Some M → e ∈ entries →
                 target e = Some (k, s) → P !! M = Some e.2 ∧ truthy e.2 = true)
    as Hwriter.
  { intros M [M' w'] HM He' [Hw' HM']%target_feeder.
    assert (M' = M) as -> by congruence. split; [by apply Hin|done]. }
  destruct (feeder k s) as [M|] eqn:HM.
  - destruct (P !! M) as [w|] eqn:HPM.
    + destruct (truthy w) eqn:Hw.
      * apply touchAll_slot_hit with M; [done|by apply Hin|].
        by apply feeder_target.
      * apply touchAll_slot_miss. intros e He' Ht'.
        destruct (Hwriter M e eq_refl He' Ht'). congruence.
    + apply touchAll_slot_miss. intros e He' Ht'.
      destruct (Hwriter M e eq_refl He' Ht'). congruence.
  - apply touchAll_slot_miss. intros [M' w'] He' [_ HM']%target_feeder.
    congruence.
Qed.

Lemma touchAll_propagate (k : string) (m : MatchupData) :
  touchAll k entries m = propagate P k m.
Proof.
  destruct (touchAll_sameTopology k entries m) as (?&?&?&?).
  pose proof (touchAll_slot k at_team1 m) as Hslot1.
  pose proof (touchAll_slot k at_team2 m) as Hslot2.
  apply MatchupData_ext; done.
Qed.

Lemma forEach_enumerates (b : BracketStructure) :
  ∃ b', forEach entries b = Return b' ∧
        ∀ k, b' !! k = propagate P k <$> b !! k.
Proof.
  eexists. split; [apply forEach_foldl|].
  intros k. rewrite foldl_applyEntry_lookup.
  destruct (b !! k); [|done]. simpl. f_equal. apply touchAll_propagate.
Qed.

Lemma deriveEntries_closed :
  deriveEntries entries = Return (derivedBracket P).
Proof.
  unfold deriveEntries, deepClone. rewrite forEach_foldl.
  f_equal. apply map_eq. intros k.
  rewrite foldl_applyEntry_lookup, derivedBracket_lookup.
  destruct (initialBracket !! k); [|done]. simpl. f_equal.
  apply touchAll_propagate.
Qed.

End enumeration.

Lemma derive_closed (P : Predictions) : derive P = Return (derivedBracket P).
Proof. apply deriveEntries_closed. by apply enumerates_permutation. Qed.

Lemma truthy_Some (w : option string) :
  truthy w = true → ∃ t, w = Some t ∧ t ≠ "".
Proof.
  destruct w as [t|]; [|done]. simpl. intros Ht. exists t. split; [done|].
  intros ->. done.
Qed.

Lemma propagated_pick (P : Predictions) (N : string) (s : Position)
    (init : option string) :
  propagated P N s init =
  match feeder N s with
  | Some M => match pick P M with Some t => Some t | None => init end
  | None => init
  end.
Proof.
  unfold propagated, pick. destruct (feeder N s) as [M|]; [|done].
  destruct (P !! M) as [w|]; [|done].
  destruct (truthy w) eqn:Hw; [|done].
  by apply truthy_Some in Hw as (t & -> & _).
Qed.

Lemma propagated_idem (P : Predictions) (N : string) (s : Position)
    (init : option string) :
  propagated P N s (propagated P N s init) = propagated P N s init.
Proof.
  rewrite !propagated_pick. destruct (feeder N s) as [M|]; [|done].
  by destruct (pick P M).
Qed.

Lemma propagate_idem (P : Predictions) (N : string) (m : MatchupData) :
  propagate P N (propagate P N m) = propagate P N m.
Proof.
  apply MatchupData_ext; try done.
  - apply (propagated_idem P N at_team1).
  - apply (propagated_idem P N at_team2).
Qed.

(** Two prediction objects with the same effective picks for the matchups of
    the template that have a successor derive the same bracket. *)
Lemma derivedBracket_ext (P Q : Predictions) :
  (∀ N s M, feeder N s = Some M → pick P M = pick Q M) →
  derivedBracket P = derivedBracket Q.
Proof.
  intros Hpick. apply map_eq. intros k. rewrite !derivedBracket_lookup.
  destruct (initialBracket !! k) as [m|]; [|done]. simpl. f_equal.
  apply MatchupData_ext; try done; simpl; rewrite !propagated_pick.
  - destruct (feeder k at_team1) as [M|] eqn:HM; [|done].
    by rewrite (Hpick _ _ _ HM).
  - destruct (feeder k at_team2) as [M|] eqn:HM; [|done].
    by rewrite (Hpick _ _ _ HM).
Qed.

Lemma pick_delete_ne (P : Predictions) (k M : string) :
  k ≠ M → pick (delete k P) M = pick P M.
Proof. intros Hne. unfold pick. by rewrite lookup_delete_ne. Qed.

Lemma derivedBracket_delete (P : Predictions) (k : string) :
  (∀ N s, feeder N s = Some k → pick P k = None) →
  derivedBracket (delete k P) = derivedBracket P.
Proof.
  intros Hk. apply derivedBracket_ext. intros N s M HM.
  destruct (decide (k = M)) as [<-|Hne].
  - rewrite (Hk _ _ HM). unfold pick. by rewrite lookup_delete_eq.
  - by apply pick_delete_ne.
Qed.

(** ** Concrete runs *)

Lemma initialBracket_F1 : initialBracket !! "F1" = Some matchup_F1.
Proof. reflexivity. Qed.

Example derive_E1_MIA :
  ∃ b, derive {[ "E1" := Some "MIA" ]} = Return b ∧
       team1 <$> b !! "E5" = Some (Some "MIA") ∧
       team2 <$> b !! "E5" = Some None ∧
       team1 <$> b !! "E7" = Some None.
Proof. eexists. split; [apply derive_closed|]. repeat split; reflexivity. Qed.

Example derive_two_rounds :
  ∃ b, derive {[ "E1" := Some "MIA"; "E2" := Some "CLE"; "E5" := Some "CLE" ]}
       = Return b ∧
       b !! "E5" = Some (mkMatchup 2 "E5" (Some "MIA") (Some "CLE") (Some "E7")
                           (Some at_team1)) ∧
       team1 <$> b !! "E7" = Some (Some "CLE").
Proof. eexists. split; [apply derive_closed|]. repeat split; reflexivity. Qed.

(** A key found on [Object.prototype] only: the read is truthy, its
    [nextMatchup] is not. *)
Example derive_prototype_key :
  derive {[ "toString" := Some "BOS" ]} = Return initialBracket.
Proof. reflexivity. Qed.

(** * The claims *)

(** ** C1 *)

(** C1, where the claim as stated fails: the entry [E1: ""] is present, [E1]
    feeds [team1] of [E5], and yet [team1] of the derived [E5] is [null], not
    the entry's winner [""]: the callback returns early on a falsy winner. *)
Lemma one_hop_empty_winner_counterexample :
  picks_E1_empty !! "E1" = Some (Some "") ∧
  initialBracket !! "E1" = Some matchup_E1 ∧
  nextMatchup matchup_E1 = Some "E5" ∧
  winnerPosition matchup_E1 = Some at_team1 ∧
  ∃ b n, derive picks_E1_empty = Return b ∧ b !! "E5" = Some n ∧
         team1 n = None ∧ team1 n ≠ Some "".
Proof.
  repeat split; try reflexivity.
  exists initialBracket, matchup_E5. repeat split; try reflexivity. done.
Qed.

(** C1 (amended): one-hop propagation.  For every prediction object [P] and
    every matchup [M] of the template with [nextMatchup = N]: the derivation
    returns a bracket in which [N] is present, and
    - if [P] has a truthy (non-empty string) winner [w] for [M], then [team1]
      of [N] is [w] when [M]'s [winnerPosition] is ["team1"], and [team2] of
      [N] is [w] when it is ["team2"], whether or not [P] has an entry for [N];
    - if [P] has no entry for [M], or one whose winner is [null] or the empty
      string, that slot of [N] is [null], whatever [P] holds for the matchups
      feeding [M]: a winner is never carried two rounds ahead. *)
Theorem one_hop_propagation (P : Predictions) (M : string) (m : MatchupData)
    (N : string) :
  initialBracket !! M = Some m → nextMatchup m = Some N →
  ∃ b n, derive P = Return b ∧ b !! N = Some n ∧
    (∀ w, P !! M = Some w → truthy w = true →
          (winnerPosition m = Some at_team1 → team1 n = w) ∧
          (winnerPosition m = Some at_team2 → team2 n = w)) ∧
    (P !! M = None ∨ (∃ w, P !! M = Some w ∧ truthy w = false) →
          (winnerPosition m = Some at_team1 → team1 n = None) ∧
          (winnerPosition m = Some at_team2 → team2 n = None)).
Proof.
  intros HM HN.
  destruct (next_in_template _ _ _ HM HN) as (_ & n0 & HN0 & _ & Hn1 & Hn2).
  exists (derivedBracket P), (propagate P N n0).
  split; [apply derive_closed|].
  split; [by rewrite derivedBracket_lookup, HN0|].
  assert (∀ s, winnerPosition m = Some s →
    slot s (propagate P N n0) =
    match P !! M with
    | Some w => if truthy w then w else None
    | None => None
    end) as Hslot.
  { intros s Hs. rewrite slot_propagate. unfold propagated.
    rewrite (feeder_complete _ _ _ _ HM HN Hs).
    destruct s; simpl; rewrite ?Hn1, ?Hn2; done. }
  split.
  - intros w HPM Hw.
    split; intros Hs; apply Hslot in Hs; cbn [slot] in Hs;
      by rewrite Hs, HPM, Hw.
  - intros [HPM | (w & HPM & Hw)];
      split; intros Hs; apply Hslot in Hs; cbn [slot] in Hs;
      by rewrite Hs, HPM, ?Hw.
Qed.

Lemma one_hop_propagation_witness :
  initialBracket !! "E1" = Some matchup_E1 ∧
  nextMatchup matchup_E1 = Some "E5" ∧
  ∃ b n, derive {[ "E1" := Some "MIA" ]} = Return b ∧ b !! "E5" = Some n ∧
    (∀ w, ({[ "E1" := Some "MIA" ]} : Predictions) !! "E1" = Some w →
          truthy w = true →
          (winnerPosition matchup_E1 = Some at_team1 → team1 n = w) ∧
          (winnerPosition matchup_E1 = Some at_team2 → team2 n = w)) ∧
    (({[ "E1" := Some "MIA" ]} : Predictions) !! "E1" = None ∨
     (∃ w, ({[ "E1" := Some "MIA" ]} : Predictions) !! "E1" = Some w ∧
           truthy w = false) →
          (winnerPosition matchup_E1 = Some at_team1 → team1 n = None) ∧
          (winnerPosition matchup_E1 = Some at_team2 → team2 n = None)).
Proof.
  split; [reflexivity|]. split; [reflexivity|].
  apply (one_hop_propagation {[ "E1" := Some "MIA" ]} "E1" matchup_E1 "E5");
    reflexivity.
Defined.

(** The round-1 pick for [E1], made through [handlePredictionChange], reaches
    [E5] and stops there: without an entry for [E5], [team1] of [E7] stays
    empty. *)
Example one_hop_no_chaining :
  ∃ b n5 n7, derive (handlePredictionChange ∅ "E1" "MIA") = Return b ∧
    b !! "E5" = Some n5 ∧ team1 n5 = Some "MIA" ∧
    b !! "E7" = Some n7 ∧ team1 n7 = None.
Proof.
  eexists _, _, _. split; [apply derive_closed|]. repeat split; reflexivity.
Qed.

(** ** C2 *)

(** C2: order independence and idempotence.  Let [entries] be the entries of
    the prediction object [P] in any order.  The derivation run over
    [entries] returns the same bracket [b] as the derivation of [P]; applying
    the entries once more to [b] returns [b] again; and one run of the effect
    returns [b] whatever bracket the component held before, in particular
    when it already holds [b]: the result depends on the template and [P]
    alone. *)
Theorem derive_order_independent_idempotent (P : Predictions)
    (entries : list (string * option string)) :
  entries ≡ₚ map_to_list P →
  ∃ b, derive P = Return b ∧
       deriveEntries entries = Return b ∧
       forEach entries b = Return b ∧
       (∀ bracket, runEffect bracket P = Return b) ∧
       runEffect b P = Return b.
Proof.
  intros Henum%enumerates_permutation.
  assert (∀ bracket, runEffect bracket P = Return (derivedBracket P)) as Hrun.
  { intros bracket. unfold runEffect. by rewrite derive_closed. }
  exists (derivedBracket P).
  split; [apply derive_closed|].
  split; [by apply deriveEntries_closed|].
  split; [|split; [exact Hrun|apply Hrun]].
  destruct (forEach_enumerates entries P Henum (derivedBracket P))
    as (b' & -> & Hb').
  f_equal. apply map_eq. intros k. rewrite Hb', derivedBracket_lookup.
  destruct (initialBracket !! k); [|done]. simpl. by rewrite propagate_idem.
Qed.

Lemma derive_order_independent_idempotent_witness :
  [("E1", Some "MIA"); ("E2", Some "CLE")] ≡ₚ map_to_list picks_E1_E2 ∧
  [("E2", Some "CLE"); ("E1", Some "MIA")] ≡ₚ map_to_list picks_E1_E2 ∧
  ∃ b, derive picks_E1_E2 = Return b ∧
       deriveEntries [("E2", Some "CLE"); ("E1", Some "MIA")] = Return b ∧
       forEach [("E2", Some "CLE"); ("E1", Some "MIA")] b = Return b ∧
       (∀ bracket, runEffect bracket picks_E1_E2 = Return b) ∧
       runEffect b picks_E1_E2 = Return b.
Proof.
  assert ([("E2", Some "CLE"); ("E1", Some "MIA")] ≡ₚ map_to_list picks_E1_E2)
    as Hperm by (first [reflexivity | apply perm_swap]).
  split; [|split; [exact Hperm|]].
  - first [reflexivity | apply perm_swap].
  - exact (derive_order_independent_idempotent picks_E1_E2 _ Hperm).
Defined.

(** ** C3 *)

(** C3, where the claim as stated fails: building a bracket in which [E1] and
    [E2] both declare [nextMatchup = E5] and [winnerPosition = team1] raises
    nothing; [updateBracketStructure] returns the malformed bracket. *)
Lemma malformed_template_accepted_counterexample :
  ∃ b m1 m2,
    updateBracketStructure initialBracket duplicateTargetPatch = Return b ∧
    b !! "E1" = Some m1 ∧ b !! "E2" = Some m2 ∧
    nextMatchup m1 = Some "E5" ∧ nextMatchup m2 = Some "E5" ∧
    winnerPosition m1 = Some at_team1 ∧ winnerPosition m2 = Some at_team1 ∧
    ∀ e, updateBracketStructure initialBracket duplicateTargetPatch ≠ Throw e.
Proof.
  eexists _, matchup_E1, _. split; [reflexivity|].
  repeat (split; [reflexivity|]). intros e. discriminate.
Qed.

(** C3 (amended): no template is ever rejected.  For every pair of brackets,
    [updateBracketStructure] returns their shallow merge, in which each
    matchup of [newBracketData] replaces the one of [currentBracket] with the
    same key; it never raises. *)
Theorem updateBracketStructure_no_validation
    (currentBracket newBracketData : BracketStructure) :
  ∃ b, updateBracketStructure currentBracket newBracketData = Return b ∧
       (∀ k, b !! k = match newBracketData !! k with
                      | Some m => Some m
                      | None => currentBracket !! k
                      end) ∧
       ∀ e, updateBracketStructure currentBracket newBracketData ≠ Throw e.
Proof.
  eexists. split; [reflexivity|]. split; [|intros e; discriminate].
  intros k. rewrite lookup_union.
  destruct (newBracketData !! k), (currentBracket !! k); done.
Qed.

(** ** C4 *)

(** C4: unknown-matchup tolerance.  If [k] is not a matchup of the template,
    then every prediction object [P] derives the same bracket as [P] without
    its entry for [k]; a prediction object holding only [k] derives what the
    empty one derives; and the derivation returns a bracket (it does not
    throw) on every prediction object and on every list of entries. *)
Theorem unknown_matchup_tolerance (P : Predictions) (k : string) :
  initialBracket !! k = None →
  derive P = derive (delete k P) ∧
  (∀ w, derive {[ k := w ]} = derive ∅) ∧
  (∀ Q : Predictions, ∃ b, derive Q = Return b) ∧
  (∀ entries, ∃ b, deriveEntries entries = Return b).
Proof.
  intros Hk.
  assert (∀ Q : Predictions, derive Q = derive (delete k Q)) as Hdel.
  { intros Q. rewrite !derive_closed. f_equal. symmetry.
    apply derivedBracket_delete. intros N s (m & Hm & _)%feeder_sound.
    congruence. }
  split; [apply Hdel|]. split; [|split].
  - intros w. rewrite (Hdel {[ k := w ]}). by rewrite delete_singleton_eq.
  - intros Q. eexists. apply derive_closed.
  - intros entries. eexists. apply forEach_foldl.
Qed.

Lemma unknown_matchup_tolerance_witness :
  initialBracket !! "X9" = None ∧
  derive {[ "X9" := Some "BOS"; "E1" := Some "MIA" ]}
  = derive (delete "X9" {[ "X9" := Some "BOS"; "E1" := Some "MIA" ]}) ∧
  (∀ w, derive {[ "X9" := w ]} = derive ∅) ∧
  (∀ Q : Predictions, ∃ b, derive Q = Return b) ∧
  (∀ entries, ∃ b, deriveEntries entries = Return b).
Proof.
  split; [reflexivity|].
  apply (unknown_matchup_tolerance
           {[ "X9" := Some "BOS"; "E1" := Some "MIA" ]} "X9").
  reflexivity.
Defined.

(** ** C5 *)

(** C5: round-1 fixed seeds.  For every prediction object [P] and every
    matchup of round 1 of the template, the derived bracket holds that
    matchup with [team1] and [team2] equal to the template's seeds. *)
Theorem round1_fixed_seeds (P : Predictions) (k : string) (m : MatchupData) :
  initialBracket !! k = Some m → round m = 1%Z →
  ∃ b n, derive P = Return b ∧ b !! k = Some n ∧
         team1 n = team1 m ∧ team2 n = team2 m.
Proof.
  intros Hk Hr. exists (derivedBracket P), (propagate P k m).
  split; [apply derive_closed|].
  split; [by rewrite derivedBracket_lookup, Hk|].
  split.
  - change (slot at_team1 (propagate P k m) = slot at_team1 m).
    rewrite slot_propagate. unfold propagated.
    by rewrite (round1_not_fed _ _ at_team1 Hk Hr).
  - change (slot at_team2 (propagate P k m) = slot at_team2 m).
    rewrite slot_propagate. unfold propagated.
    by rewrite (round1_not_fed _ _ at_team2 Hk Hr).
Qed.

Lemma round1_fixed_seeds_witness :
  initialBracket !! "E1" = Some matchup_E1 ∧ round matchup_E1 = 1%Z ∧
  ∃ b n, derive {[ "E1" := Some "MIA"; "E5" := Some "MIA" ]} = Return b ∧
         b !! "E1" = Some n ∧
         team1 n = Some "BOS" ∧ team2 n = Some "MIA".
Proof.
  split; [reflexivity|]. split; [reflexivity|].
  apply (round1_fixed_seeds {[ "E1" := Some "MIA"; "E5" := Some "MIA" ]}
           "E1" matchup_E1); reflexivity.
Defined.

(** ** C6 *)

(** C6, where the claim as stated fails: with the entry [F1: ""] the champion
    that [saveUserPredictions] records is [null], not the entry [""]. *)
Lemma champion_empty_entry_counterexample :
  picks_F1_empty !! "F1" = Some (Some "") ∧
  champion picks_F1_empty = None ∧ champion picks_F1_empty ≠ Some "".
Proof. repeat split; try reflexivity. discriminate. Qed.

(** C6 (amended): root-matchup prediction.  For every prediction object [P]
    with an entry [w] for the root [F1]: [P] derives the bracket that [P]
    without that entry derives, so the entry changes no slot of any matchup,
    those of [F1] included; the recorded champion is [w] when [w] is a
    non-empty string and [null] when it is not; without the entry the
    champion is [null]; and [hasChampion] tells the two cases apart. *)
Theorem root_prediction (P : Predictions) (w : option string) :
  P !! "F1" = Some w →
  derive P = derive (delete "F1" P) ∧
  (∃ b, derive P = Return b) ∧
  (truthy w = true → champion P = w ∧ hasChampion P = true) ∧
  (truthy w = false → champion P = None ∧ hasChampion P = false) ∧
  champion (delete "F1" P) = None.
Proof.
  intros HF1. split; [|split; [|split; [|split]]].
  - rewrite !derive_closed. f_equal. symmetry.
    apply derivedBracket_delete. intros N s (m & Hm & HN & _)%feeder_sound.
    rewrite initialBracket_F1 in Hm. injection Hm as <-. discriminate HN.
  - eexists. apply derive_closed.
  - intros Hw. unfold champion, hasChampion. by rewrite HF1, Hw.
  - intros Hw. unfold champion, hasChampion. by rewrite HF1, Hw.
  - unfold champion. by rewrite lookup_delete_eq.
Qed.

Lemma root_prediction_witness :
  picks_E7_F1 !! "F1" = Some (Some "BOS") ∧
  derive picks_E7_F1 = derive (delete "F1" picks_E7_F1) ∧
  (∃ b, derive picks_E7_F1 = Return b) ∧
  (truthy (Some "BOS") = true →
   champion picks_E7_F1 = Some "BOS" ∧ hasChampion picks_E7_F1 = true) ∧
  (truthy (Some "BOS") = false →
   champion picks_E7_F1 = None ∧ hasChampion picks_E7_F1 = false) ∧
  champion (delete "F1" picks_E7_F1) = None.
Proof.
  split; [reflexivity|].
  apply (root_prediction picks_E7_F1 (Some "BOS")). reflexivity.
Defined.

(** ** C7 *)

(** C7: topology of [initialBracket].
    - [F1] is a matchup, and a matchup has no [nextMatchup] exactly when it is
      [F1];
    - every other matchup names one successor and one slot of it;
    - two matchups with the same [nextMatchup] and the same [winnerPosition]
      are the same matchup;
    - the successor of a matchup is a matchup of the template whose round is
      one more, hence strictly greater. *)
Theorem initialBracket_topology :
  (∃ f, initialBracket !! "F1" = Some f ∧ nextMatchup f = None) ∧
  (∀ k m, initialBracket !! k = Some m →
          (nextMatchup m = None ↔ k = "F1")) ∧
  (∀ k m, initialBracket !! k = Some m → k ≠ "F1" →
          ∃ N s, nextMatchup m = Some N ∧ winnerPosition m = Some s) ∧
  (∀ k1 k2 m1 m2 N s,
      initialBracket !! k1 = Some m1 → initialBracket !! k2 = Some m2 →
      nextMatchup m1 = Some N → nextMatchup m2 = Some N →
      winnerPosition m1 = Some s → winnerPosition m2 = Some s →
      k1 = k2) ∧
  (∀ k m N, initialBracket !! k = Some m → nextMatchup m = Some N →
            ∃ n, initialBracket !! N = Some n ∧
                 round n = (round m + 1)%Z ∧ (round m < round n)%Z).
Proof.
  split; [|split; [|split; [|split]]].
  - exists matchup_F1. split; reflexivity.
  - intros k m Hk. matchup_cases Hk; simpl; split; (done || discriminate).
  - intros k m Hk Hne. matchup_cases Hk; simpl;
      first [by destruct Hne | by eexists _, _].
  - intros k1 k2 m1 m2 N s H1 H2 HN1 HN2 Hs1 Hs2.
    pose proof (feeder_complete _ _ _ _ H1 HN1 Hs1).
    pose proof (feeder_complete _ _ _ _ H2 HN2 Hs2). congruence.
  - intros k m N Hk HN.
    destruct (next_in_template _ _ _ Hk HN) as (_ & n & Hn & Hr & _).
    exists n. split; [done|]. split; [done|]. lia.
Qed.

(** ** C8 *)

(** C8: per-entry noninterference.  Let [M] be a matchup of the template
    feeding slot [s] of [N].  Two prediction objects that agree on [M]
    (same entry, or none in both) derive brackets with the same value in slot
    [s] of [N].  In particular removing the entry of any other matchup [K]
    from a prediction object leaves that slot as it was: clearing a round-1
    pick does not retract the winner of a round-2 matchup. *)
Theorem per_entry_noninterference (P1 P2 : Predictions) (M : string)
    (m : MatchupData) (N : string) (s : Position) :
  initialBracket !! M = Some m →
  nextMatchup m = Some N → winnerPosition m = Some s →
  P1 !! M = P2 !! M →
  ∃ b1 b2 n1 n2,
    derive P1 = Return b1 ∧ derive P2 = Return b2 ∧
    b1 !! N = Some n1 ∧ b2 !! N = Some n2 ∧
    slot s n1 = slot s n2 ∧
    ∀ K, K ≠ M →
         ∃ b3 n3, derive (delete K P1) = Return b3 ∧ b3 !! N = Some n3 ∧
                  slot s n3 = slot s n1.
Proof.
  intros HM HN Hs Hagree.
  destruct (next_in_template _ _ _ HM HN) as (_ & n0 & Hn0 & _).
  assert (∀ Q R : Predictions, Q !! M = R !! M →
    slot s (propagate Q N n0) = slot s (propagate R N n0)) as Hslot.
  { intros Q R HQR. rewrite !slot_propagate. unfold propagated.
    rewrite (feeder_complete _ _ _ _ HM HN Hs). by rewrite HQR. }
  exists (derivedBracket P1), (derivedBracket P2),
    (propagate P1 N n0), (propagate P2 N n0).
  split; [apply derive_closed|]. split; [apply derive_closed|].
  split; [by rewrite derivedBracket_lookup, Hn0|].
  split; [by rewrite derivedBracket_lookup, Hn0|].
  split; [by apply Hslot|].
  intros K HK. exists (derivedBracket (delete K P1)), (propagate (delete K P1) N n0).
  split; [apply derive_closed|].
  split; [by rewrite derivedBracket_lookup, Hn0|].
  apply Hslot. by apply lookup_delete_ne.
Qed.

Lemma per_entry_noninterference_witness :
  initialBracket !! "E5" = Some matchup_E5 ∧
  nextMatchup matchup_E5 = Some "E7" ∧
  winnerPosition matchup_E5 = Some at_team1 ∧
  picks_E1_E5 !! "E5" = ({[ "E5" := Some "MIA" ]} : Predictions) !! "E5" ∧
  ∃ b1 b2 n1 n2,
    derive picks_E1_E5 = Return b1 ∧
    derive {[ "E5" := Some "MIA" ]} = Return b2 ∧
    b1 !! "E7" = Some n1 ∧ b2 !! "E7" = Some n2 ∧
    slot at_team1 n1 = slot at_team1 n2 ∧
    ∀ K, K ≠ "E5" →
         ∃ b3 n3, derive (delete K picks_E1_E5) = Return b3 ∧
                  b3 !! "E7" = Some n3 ∧
                  slot at_team1 n3 = slot at_team1 n1.
Proof.
  do 4 (split; [reflexivity|]).
  apply (per_entry_noninterference picks_E1_E5 {[ "E5" := Some "MIA" ]}
           "E5" matchup_E5 "E7" at_team1); reflexivity.
Defined.

(** Clearing the pick for [E1] keeps [MIA] in [team1] of [E7]. *)
Example clearing_round1_keeps_round2 :
  ∃ b n, derive (delete "E1" picks_E1_E5) = Return b ∧
         b !! "E7" = Some n ∧ team1 n = Some "MIA".
Proof.
  eexists _, _. split; [apply derive_closed|]. split; reflexivity.
Qed.

(** ** C9 *)

(** C9: template-field frame condition.  For every prediction object [P] the
    derivation returns a bracket with the keys of the template, in which each
    matchup has the template's [round], [matchupId], [nextMatchup] and
    [winnerPosition]; a matchup that no template matchup names as its
    [nextMatchup] is the template's matchup unchanged, and so is every
    matchup of round 1. *)
Theorem template_fields_frame (P : Predictions) :
  ∃ b, derive P = Return b ∧
    (∀ k, match b !! k, initialBracket !! k with
          | Some n, Some m =>
              round n = round m ∧ matchupId n = matchupId m ∧
              nextMatchup n = nextMatchup m ∧
              winnerPosition n = winnerPosition m
          | None, None => True
          | _, _ => False
          end) ∧
    (∀ k, (∀ k' m', initialBracket !! k' = Some m' → nextMatchup m' ≠ Some k) →
          b !! k = initialBracket !! k) ∧
    (∀ k m, initialBracket !! k = Some m → round m = 1%Z → b !! k = Some m).
Proof.
  assert (∀ k m, feeder k at_team1 = None → feeder k at_team2 = None →
                 propagate P k m = m) as Hid.
  { intros k m H1 H2. apply MatchupData_ext; try done; simpl;
      unfold propagated; by rewrite ?H1, ?H2. }
  exists (derivedBracket P). split; [apply derive_closed|].
  split; [|split].
  - intros k. rewrite derivedBracket_lookup.
    by destruct (initialBracket !! k).
  - intros k Hk. rewrite derivedBracket_lookup.
    destruct (initialBracket !! k) as [m|] eqn:Hm; [|done]. simpl. f_equal.
    apply Hid.
    + destruct (feeder k at_team1) as [M|] eqn:HM; [|done].
      apply feeder_sound in HM as (m' & Hm' & HN & _). by destruct (Hk _ _ Hm').
    + destruct (feeder k at_team2) as [M|] eqn:HM; [|done].
      apply feeder_sound in HM as (m' & Hm' & HN & _). by destruct (Hk _ _ Hm').
  - intros k m Hk Hr. rewrite derivedBracket_lookup, Hk. simpl. f_equal.
    apply Hid; by eapply round1_not_fed.
Qed.

(** ** C10 *)

(** C10: empty-winner tolerance.  An entry whose winner is [null] or the
    empty string is skipped: the prediction object derives the same bracket
    as without that entry. *)
Theorem empty_winner_tolerance (P : Predictions) (k : string)
    (w : option string) :
  P !! k = Some w → w = None ∨ w = Some "" →
  derive P = derive (delete k P).
Proof.
  intros Hk Hw. rewrite !derive_closed. f_equal. symmetry.
  apply derivedBracket_delete. intros _ _ _. unfold pick. rewrite Hk.
  by destruct Hw as [-> | ->].
Qed.

Lemma empty_winner_tolerance_witness :
  ({[ "E1" := Some ""; "E2" := Some "CLE" ]} : Predictions) !! "E1"
  = Some (Some "") ∧
  (Some "" = None ∨ Some "" = Some "") ∧
  derive {[ "E1" := Some ""; "E2" := Some "CLE" ]}
  = derive (delete "E1" {[ "E1" := Some ""; "E2" := Some "CLE" ]}).
Proof.
  split; [reflexivity|]. split; [by right|].
  apply (empty_winner_tolerance {[ "E1" := Some ""; "E2" := Some "CLE" ]}
           "E1" (Some "")); [reflexivity|by right].
Defined.

(** * Further properties: roster, clicks and submission *)

#[global] Arguments nbaTeams : simpl never.
#[global] Arguments nbaTeams_entries : simpl never.

(** ** The template and the roster *)

Ltac elem_of_list :=
  repeat first [apply list_elem_of_here | apply list_elem_of_further].

Lemma template_key (k : string) (m : MatchupData) :
  initialBracket !! k = Some m → matchupId m = k ∧ k ∈ renderedMatchups.
Proof.
  intros Hk. matchup_cases Hk; (split; [reflexivity|]);
    unfold renderedMatchups; elem_of_list.
Qed.

Lemma derive_Return (P : Predictions) (b : BracketStructure) :
  derive P = Return b → b = derivedBracket P.
Proof. rewrite derive_closed. congruence. Qed.

(** A matchup feeds a matchup of its own side of the bracket, or the final. *)
Lemma sideOf_feeds (M : string) (m : MatchupData) (N : string) (c : Conference) :
  initialBracket !! M = Some m → nextMatchup m = Some N →
  sideOf N = Some c → sideOf M = Some c.
Proof.
  intros HM HN. matchup_cases HM; simpl in HN;
    first [discriminate HN | injection HN as <-];
    vm_compute; first [done | discriminate].
Qed.

Lemma contender_roster (t k : string) :
  contender t k →
  ∃ team, nbaTeams !! t = Some team ∧ NBATeam.id team = t ∧
          truthy (Some t) = true ∧
          ∀ c, sideOf k = Some c → NBATeam.conference team = c.
Proof.
  induction 1 as [k m s t Hk Hs | M m N t HM HN _ (team & Ht & Hid & Htr & Hc)].
  - matchup_cases Hk; destruct s; simpl in Hs;
      first [discriminate Hs | injection Hs as <-];
      (eexists; split; [reflexivity|]; split; [reflexivity|];
       split; [reflexivity|]; intros c Hc; vm_compute in Hc;
       by injection Hc as <-).
  - exists team. repeat split; try done.
    intros c Hside. apply Hc. by eapply sideOf_feeds.
Qed.

Lemma contender_template (t k : string) :
  contender t k → is_Some (initialBracket !! k).
Proof.
  destruct 1 as [k m s t Hk _ | M m N t HM HN _]; [by eexists|].
  destruct (next_in_template _ _ _ HM HN) as (_ & n & Hn & _). by eexists.
Qed.

(** ** Clicks *)

(** A truthy slot of the bracket derived from well-picked predictions holds
    a contender of its matchup. *)
Lemma derived_slot_contender (P : Predictions) (k : string) (m : MatchupData)
    (s : Position) (t : string) :
  wellPicked P → initialBracket !! k = Some m →
  slot s (propagate P k m) = Some t → contender t k.
Proof.
  intros HP Hk. rewrite slot_propagate. unfold propagated.
  destruct (feeder k s) as [M|] eqn:HM; [|intros Hs; by eapply contender_seed].
  destruct (P !! M) as [w|] eqn:HPM; [|intros Hs; by eapply contender_seed].
  destruct (truthy w); [|intros Hs; by eapply contender_seed].
  intros ->. destruct (HP _ _ HPM) as (t' & [= <-] & Hcont).
  apply feeder_sound in HM as (m' & Hm' & HN & _).
  by apply contender_advance with M m'.
Qed.

(** A click changes nothing, or records the team shown in the clicked slot
    as the pick of the clicked matchup. *)
Lemma clickTeam_cases (st : BracketsPageState) (k : string) (s : Position) :
  clickTeam st k s = st ∨
  ∃ m t, initialBracket !! k = Some m ∧
         slot s (propagate (predictions st) k m) = Some t ∧
         truthy (Some t) = true ∧
         clickTeam st k s = onPredictionChange st k t.
Proof.
  unfold clickTeam. case_bool_decide; [|by left].
  rewrite derive_closed, derivedBracket_lookup.
  destruct (initialBracket !! k) as [m|] eqn:Hk; [|by left].
  cbn [fmap option_fmap option_map]. unfold Matchup_onClick.
  destruct (negb _ && negb _); [by left|].
  destruct (slot s (propagate (predictions st) k m)) as [t|] eqn:Hs; [|by left].
  destruct (truthy (Some t)) eqn:Ht; [|by left].
  right. exists m, t. repeat split; try done.
  change (matchupId (propagate (predictions st) k m)) with (matchupId m).
  by destruct (template_key _ _ Hk) as [-> _].
Qed.

Lemma handleSubmit_frame (save : Prediction.t → bool) (st : BracketsPageState) :
  predictions (handleSubmit save st).1 = predictions st ∧
  championSelected (handleSubmit save st).1 = championSelected st ∧
  userId (handleSubmit save st).1 = userId st.
Proof.
  unfold handleSubmit. destruct (userId st) as [uid|] eqn:Huid; [|done].
  destruct (negb (truthy (Some uid))); [done|].
  destruct (size (predictions st) <? 15)%nat; [done|].
  destruct (negb (hasChampion (predictions st))); [done|].
  by destruct (success _).
Qed.

Lemma pageInv_initial (storedUserId : option string) :
  pageInv (initialPageState storedUserId).
Proof.
  split; [|split; [reflexivity|]].
  - intros k w Hk.
    change (predictions (initialPageState storedUserId))
      with (∅ : Predictions) in Hk.
    by rewrite lookup_empty in Hk.
  - unfold initialPageState. cbn [userId].
    destruct (truthy storedUserId) eqn:Hu; [by right|by left].
Qed.

Lemma pageInv_click (st : BracketsPageState) (k : string) (s : Position) :
  pageInv st → pageInv (clickTeam st k s).
Proof.
  intros (HP & Hch & Hu).
  destruct (clickTeam_cases st k s) as [-> | (m & t & Hk & Hs & Ht & ->)];
    [done|].
  split; [|split; [|exact Hu]].
  - intros k' w. cbn [onPredictionChange predictions].
    unfold handlePredictionChange. rewrite lookup_insert.
    case_decide as Hkk'; [|by apply HP].
    subst k'. intros [= <-]. exists t. split; [done|].
    by eapply derived_slot_contender.
  - cbn [onPredictionChange predictions championSelected].
    unfold handlePredictionChange, hasChampion. rewrite lookup_insert.
    case_decide as HF1; [by rewrite Ht|exact Hch].
Qed.

Lemma pageInv_step (st : BracketsPageState) (ev : PageEvent) :
  pageInv st → pageInv (pageStep st ev).
Proof.
  intros Hinv. destruct ev as [k s | ok]; [by apply pageInv_click|].
  simpl. destruct (submitDisabled st); [done|].
  destruct (handleSubmit_frame (λ _, ok) st) as (HP & Hch & Hu).
  unfold pageInv. by rewrite HP, Hch, Hu.
Qed.

Lemma pageInv_run (st : BracketsPageState) (evs : list PageEvent) :
  pageInv st → pageInv (pageRun st evs).
Proof.
  revert st. induction evs as [|ev evs IH]; intros st Hinv; [done|].
  apply IH. by apply pageInv_step.
Qed.

Example fullRun_complete :
  size (predictions (pageRun (initialPageState (Some "u1")) fullRun)) = 15%nat ∧
  predictions (pageRun (initialPageState (Some "u1")) fullRun) !! "F1"
  = Some (Some "BOS").
Proof. split; reflexivity. Qed.

(** No matchup feeds itself. *)
Lemma feeder_irreflexive (k : string) (s : Position) : feeder k s ≠ Some k.
Proof.
  intros (m & Hk & HN & _)%feeder_sound.
  destruct (next_in_template _ _ _ Hk HN) as (_ & n & Hn & Hr & _).
  assert (n = m) as -> by congruence. lia.
Qed.

(** A new pick for [k] is seen by the slot [k] feeds, and by no other. *)
Lemma propagated_insert_ne (P : Predictions) (k : string) (w : option string)
    (N : string) (s : Position) (init : option string) :
  feeder N s ≠ Some k →
  propagated (<[k := w]> P) N s init = propagated P N s init.
Proof.
  intros Hne. unfold propagated. destruct (feeder N s) as [M|]; [|done].
  rewrite lookup_insert_ne; [done|]. congruence.
Qed.

Lemma propagated_insert_eq (P : Predictions) (k t : string) (N : string)
    (s : Position) (init : option string) :
  feeder N s = Some k → truthy (Some t) = true →
  propagated (<[k := Some t]> P) N s init = Some t.
Proof.
  intros HN Ht. unfold propagated. by rewrite HN, lookup_insert_eq, Ht.
Qed.

Lemma Matchup_onClick_Some (n : MatchupData) (s : Position) (id t : string) :
  Matchup_onClick n s = Some (id, t) →
  id = matchupId n ∧ slot s n = Some t ∧ truthy (Some t) = true.
Proof.
  unfold Matchup_onClick. destruct (negb _ && negb _); [done|].
  destruct (slot s n) as [t'|]; [|done].
  destruct (truthy (Some t')) eqn:Ht; [|done]. by intros [= <- <-].
Qed.

Lemma truthy_nonempty (t : string) : truthy (Some t) = true ↔ t ≠ "".
Proof.
  simpl. destruct (String.eqb_spec t ""); split; simpl; congruence.
Qed.

(** ** X1 *)

(** X1: what a click does.  Let the page show the bracket [b] derived from
    its predictions, and let a click on slot [s] of the matchup [k] call
    [onTeamSelect(id, t)].  Then [id] is [k], [t] is the non-empty team in
    that slot, the new predictions are the old ones with [k: t], and in the
    bracket derived from them: the clicked matchup is as it was (its picked
    team is still in its slot, now styled as selected), the slot that [k]
    feeds holds [t], and every slot that [k] does not feed is as it was. *)
Theorem click_effect (st : BracketsPageState) (k : string) (s : Position)
    (b : BracketStructure) (n : MatchupData) (id t : string) :
  derive (predictions st) = Return b → b !! k = Some n →
  Matchup_onClick n s = Some (id, t) →
  id = k ∧ slot s n = Some t ∧ t ≠ "" ∧
  predictions (clickTeam st k s) = <[k := Some t]> (predictions st) ∧
  ∃ b', derive (predictions (clickTeam st k s)) = Return b' ∧
        b' !! k = Some n ∧
        isSelected (predictions (clickTeam st k s) !! k) (slot s n) = true ∧
        (∀ m N sp, initialBracket !! k = Some m → nextMatchup m = Some N →
                   winnerPosition m = Some sp →
                   ∃ n', b' !! N = Some n' ∧ slot sp n' = Some t) ∧
        (∀ k' s',
            (∀ m, initialBracket !! k = Some m →
                  ¬ (nextMatchup m = Some k' ∧ winnerPosition m = Some s')) →
            slot s' <$> b' !! k' = slot s' <$> b !! k').
Proof.
  intros Hb%derive_Return Hn Hclick. subst b.
  rewrite derivedBracket_lookup in Hn.
  destruct (initialBracket !! k) as [m|] eqn:Hk; [|done].
  injection Hn as <-.
  destruct (template_key _ _ Hk) as [Hid Hrendered].
  destruct (Matchup_onClick_Some _ _ _ _ Hclick) as (-> & Hs & Ht).
  change (matchupId (propagate (predictions st) k m)) with (matchupId m) in *.
  rewrite Hid in *.
  assert (clickTeam st k s = onPredictionChange st k t) as Hstep.
  { unfold clickTeam. rewrite bool_decide_eq_true_2 by done.
    rewrite derive_closed, derivedBracket_lookup, Hk.
    cbn [fmap option_fmap option_map]. by rewrite Hclick. }
  rewrite Hstep. cbn [onPredictionChange predictions].
  unfold handlePredictionChange.
  split; [done|]. split; [done|]. split; [by apply truthy_nonempty|].
  split; [done|].
  exists (derivedBracket (<[k := Some t]> (predictions st))).
  split; [apply derive_closed|].
  assert (∀ k' s' init, feeder k' s' ≠ Some k →
    propagated (<[k := Some t]> (predictions st)) k' s' init
    = propagated (predictions st) k' s' init) as Hframe.
  { intros k' s' init Hne. by apply propagated_insert_ne. }
  split; [|split; [|split]].
  - rewrite derivedBracket_lookup, Hk. cbn [fmap option_fmap option_map].
    f_equal. apply MatchupData_ext; try done; simpl.
    + apply Hframe, feeder_irreflexive.
    + apply Hframe, feeder_irreflexive.
  - rewrite lookup_insert_eq. simpl. by apply bool_decide_eq_true_2.
  - intros m' N sp [= <-] HN Hsp.
    destruct (next_in_template _ _ _ Hk HN) as (_ & n0 & Hn0 & _).
    exists (propagate (<[k := Some t]> (predictions st)) N n0).
    split; [by rewrite derivedBracket_lookup, Hn0|].
    rewrite slot_propagate. apply propagated_insert_eq; [|done].
    by eapply feeder_complete.
  - intros k' s' Hnot. rewrite !derivedBracket_lookup.
    destruct (initialBracket !! k') as [m'|]; [|done].
    cbn [fmap option_fmap option_map]. f_equal. rewrite !slot_propagate.
    apply Hframe. intros (m0 & Hm0 & HN & Hsp)%feeder_sound.
    apply (Hnot m0); [congruence|done].
Qed.

Lemma click_effect_witness :
  derive (predictions (initialPageState (Some "u1")))
  = Return initialBracket ∧
  initialBracket !! "E1" = Some matchup_E1 ∧
  Matchup_onClick matchup_E1 at_team2 = Some ("E1", "MIA") ∧
  predictions (clickTeam (initialPageState (Some "u1")) "E1" at_team2)
  = <[ "E1" := Some "MIA" ]> (predictions (initialPageState (Some "u1"))).
Proof.
  split; [reflexivity|]. split; [reflexivity|]. split; [reflexivity|].
  apply (click_effect (initialPageState (Some "u1")) "E1" at_team2
           initialBracket matchup_E1 "E1" "MIA"); reflexivity.
Defined.

(** ** X2 *)

(** X2: picks made by clicking are contenders.  After any sequence of clicks
    on teams and on the submit button, every entry of the predictions is for
    a matchup of the template and holds a non-empty team of the roster that
    is a contender of that matchup; a matchup laid out under a conference
    holds a team of that conference. *)
Theorem reachable_picks_are_contenders (storedUserId : option string)
    (evs : list PageEvent) (k : string) (w : option string) :
  predictions (pageRun (initialPageState storedUserId) evs) !! k = Some w →
  ∃ t team m,
    w = Some t ∧ t ≠ "" ∧ contender t k ∧
    initialBracket !! k = Some m ∧
    nbaTeams !! t = Some team ∧ NBATeam.id team = t ∧
    ∀ c, sideOf k = Some c → NBATeam.conference team = c.
Proof.
  intros Hk.
  destruct (pageInv_run _ evs (pageInv_initial storedUserId)) as (HP & _).
  destruct (HP _ _ Hk) as (t & -> & Hcont).
  destruct (contender_roster _ _ Hcont) as (team & Ht & Hid & Htr & Hside).
  destruct (contender_template _ _ Hcont) as [m Hm].
  exists t, team, m. repeat split; try done. by apply truthy_nonempty.
Qed.

Lemma reachable_picks_are_contenders_witness :
  predictions (pageRun (initialPageState (Some "u1")) fullRun) !! "E7"
  = Some (Some "BOS") ∧
  ∃ t team m,
    Some "BOS" = Some t ∧ t ≠ "" ∧ contender t "E7" ∧
    initialBracket !! "E7" = Some m ∧
    nbaTeams !! t = Some team ∧ NBATeam.id team = t ∧
    ∀ c, sideOf "E7" = Some c → NBATeam.conference team = c.
Proof.
  split; [reflexivity|].
  apply (reachable_picks_are_contenders (Some "u1") fullRun "E7" (Some "BOS")).
  reflexivity.
Defined.

(** ** X3 *)

(** X3: the champion flag.  After any sequence of clicks, [championSelected]
    is set exactly when the predictions hold a pick for [F1], the value
    [hasChampion] computes; and the champion [saveUserPredictions] would
    record is the [F1] entry itself, or [null] when there is none. *)
Theorem reachable_champion_flag (storedUserId : option string)
    (evs : list PageEvent) :
  championSelected (pageRun (initialPageState storedUserId) evs)
  = hasChampion (predictions (pageRun (initialPageState storedUserId) evs)) ∧
  (championSelected (pageRun (initialPageState storedUserId) evs) = true ↔
   ∃ t, predictions (pageRun (initialPageState storedUserId) evs) !! "F1"
        = Some (Some t) ∧ t ≠ "") ∧
  champion (predictions (pageRun (initialPageState storedUserId) evs))
  = match predictions (pageRun (initialPageState storedUserId) evs) !! "F1" with
    | Some w => w
    | None => None
    end.
Proof.
  destruct (pageInv_run _ evs (pageInv_initial storedUserId)) as (HP & Hch & _).
  set (st := pageRun (initialPageState storedUserId) evs) in *.
  split; [exact Hch|]. rewrite Hch. unfold hasChampion, champion.
  destruct (predictions st !! "F1") as [w|] eqn:HF1.
  - destruct (HP _ _ HF1) as (t & -> & Hcont).
    destruct (contender_roster _ _ Hcont) as (_ & _ & _ & Htr & _).
    rewrite Htr. split; [|done]. split; [|done].
    intros _. exists t. split; [done|]. by apply truthy_nonempty.
  - split; [|done]. split; [done|]. by intros (t & ? & _).
Qed.

(** ** X4 *)





(** ** X5 *)


(** ** X6 *)

Lemma Map_set_fresh {V : Type} (key : string) (value : V)
    (entries : list (string * V)) :
  key ∉ entries.*1 →
  Map_set key value entries = (entries ++ [(key, value)])%list.
Proof.
  induction entries as [|[k v] l IH]; intros Hfresh; [done|].
  rewrite fmap_cons in Hfresh. apply not_elem_of_cons in Hfresh as [Hne Hl].
  simpl. rewrite decide_False by done. by rewrite IH.
Qed.

(** Building a [Map] from entries with distinct keys keeps them as they
    are. *)
Lemma newMap_NoDup {V : Type} (entries : list (string * V)) :
  NoDup entries.*1 → newMap entries = entries.
Proof.
  unfold newMap.
  assert (∀ acc, NoDup (acc ++ entries)%list.*1 →
    foldl (λ m e, Map_set e.1 e.2 m) acc entries = (acc ++ entries)%list)
    as Hgen.
  { induction entries as [|[k v] l IH]; intros acc Hnd; simpl.
    - by rewrite app_nil_r.
    - rewrite Map_set_fresh.
      + rewrite IH; [by rewrite <-app_assoc|].
        by rewrite <-app_assoc.
      + rewrite fmap_app, fmap_cons in Hnd.
        apply NoDup_app in Hnd as (_ & Hdisj & _).
        intros Hin. apply (Hdisj _ Hin). by left. }
  intros Hnd. by apply (Hgen []).
Qed.

Lemma foldl_assignProperty (entries : list (string * string))
    (acc : gmap string string) :
  NoDup entries.*1 →
  foldl (λ record e, assignProperty record e.1 e.2) acc entries
  = delete "__proto__" (list_to_map entries) ∪ acc.
Proof.
  revert acc. induction entries as [|[k v] l IH]; intros acc Hnd.
  - simpl. by rewrite delete_empty, (left_id_L ∅ (∪)).
  - rewrite fmap_cons in Hnd. apply NoDup_cons in Hnd as [Hfresh Hnd].
    cbn [foldl fst snd list_to_map foldr]. rewrite IH by done.
    unfold assignProperty. case_decide as Hk.
    + subst k. by rewrite delete_insert_eq.
    + rewrite delete_insert_ne by done.
      rewrite <-insert_union_l. rewrite <-insert_union_r; [done|].
      rewrite lookup_delete_ne by done.
      by apply not_elem_of_list_to_map_1.
Qed.

(** X6: reading a saved record back.  For every record of strings,
    [mapToRecord] applied to the [Map] that [saveUserPredictions] builds from
    its entries returns the record without its [__proto__] entry, hence the
    record itself when it has none; a plain object is returned as it is,
    and [null] or [undefined] gives the empty record. *)
Theorem mapToRecord_round_trip (record : gmap string string) :
  mapToRecord (FieldMap (newMap (map_to_list record)))
  = delete "__proto__" record ∧
  (record !! "__proto__" = None →
   mapToRecord (FieldMap (newMap (map_to_list record))) = record) ∧
  mapToRecord (FieldObject record) = record ∧
  mapToRecord FieldNullish = ∅.
Proof.
  assert (mapToRecord (FieldMap (newMap (map_to_list record)))
          = delete "__proto__" record) as Hmap.
  { rewrite newMap_NoDup by apply NoDup_fst_map_to_list.
    unfold mapToRecord.
    rewrite foldl_assignProperty by apply NoDup_fst_map_to_list.
    by rewrite list_to_map_to_list, (right_id_L ∅ (∪)). }
  split; [exact Hmap|]. split; [|done].
  intros Hnone. rewrite Hmap. by apply delete_id.
Qed.

Example mapToRecord_drops_proto :
  mapToRecord (FieldMap (newMap (map_to_list record_with_proto)))
  = {[ "E1" := "BOS" ]}.
Proof.
  rewrite newMap_NoDup by apply NoDup_fst_map_to_list.
  unfold mapToRecord.
  rewrite foldl_assignProperty by apply NoDup_fst_map_to_list.
  rewrite list_to_map_to_list, (right_id_L ∅ (∪)). reflexivity.
Qed.

(** ** X7 *)

(** X7: [updatePlayoffTeams] as a merge.  In the result each key of
    [newTeams] has the team of [newTeams] and every other key the team of
    [currentTeams]; no team of [currentTeams] loses its key; the empty update
    changes nothing; applying an update twice is applying it once; and two
    updates in a row are the one update obtained by merging the second into
    the first. *)
Theorem updatePlayoffTeams_merge (currentTeams a b : NbaTeamsStructure) :
  (∀ k, updatePlayoffTeams currentTeams a !! k
        = match a !! k with
          | Some team => Some team
          | None => currentTeams !! k
          end) ∧
  dom currentTeams ⊆ dom (updatePlayoffTeams currentTeams a) ∧
  updatePlayoffTeams currentTeams ∅ = currentTeams ∧
  updatePlayoffTeams (updatePlayoffTeams currentTeams a) a
  = updatePlayoffTeams currentTeams a ∧
  updatePlayoffTeams (updatePlayoffTeams currentTeams a) b
  = updatePlayoffTeams currentTeams (updatePlayoffTeams a b).
Proof.
  unfold updatePlayoffTeams. split; [|split; [|split; [|split]]].
  - intros k. rewrite lookup_union.
    destruct (a !! k), (currentTeams !! k); done.
  - rewrite dom_union_L. set_solver.
  - apply (left_id_L ∅ (∪)).
  - by rewrite (assoc_L (∪)), (idemp_L (∪)).
  - by rewrite (assoc_L (∪)).
Qed.

(** ** X8 *)

Lemma nbaTeams_elem (t : string) (team : NBATeam.t) :
  nbaTeams !! t = Some team → (t, team) ∈ nbaTeams_entries.
Proof. apply elem_of_list_to_map_2. Qed.

(** Case analysis over the sixteen teams of the roster. *)
Ltac team_cases H :=
  apply nbaTeams_elem in H;
  unfold nbaTeams_entries in H;
  repeat (apply elem_of_cons in H as [H|H]; [injection H as -> ->|]);
  [..|by apply elem_of_nil in H].

Ltac seed_at k s :=
  exists k; eexists; exists s;
  split; [reflexivity|]; split; [reflexivity|]; split; [reflexivity|].

Ltac find_seed :=
  first [ seed_at "E1" at_team1 | seed_at "E1" at_team2
        | seed_at "E2" at_team1 | seed_at "E2" at_team2
        | seed_at "E3" at_team1 | seed_at "E3" at_team2
        | seed_at "E4" at_team1 | seed_at "E4" at_team2
        | seed_at "W1" at_team1 | seed_at "W1" at_team2
        | seed_at "W2" at_team1 | seed_at "W2" at_team2
        | seed_at "W3" at_team1 | seed_at "W3" at_team2
        | seed_at "W4" at_team1 | seed_at "W4" at_team2 ].

(** X8: the seeding of round 1.  Every round-1 matchup of [initialBracket]
    pairs two teams of [nbaTeams] of the conference the matchup is laid out
    under, whose seeds add up to 9, the better seed in [team1].  Every team
    of [nbaTeams] is stored under its own [id] and sits in exactly one slot
    of the template, a slot of a round-1 matchup. *)
Theorem round1_seeding :
  (∀ k m, initialBracket !! k = Some m → round m = 1%Z →
     ∃ t1 t2 a b,
       team1 m = Some t1 ∧ team2 m = Some t2 ∧
       nbaTeams !! t1 = Some a ∧ nbaTeams !! t2 = Some b ∧
       sideOf k = Some (NBATeam.conference a) ∧
       NBATeam.conference a = NBATeam.conference b ∧
       (NBATeam.seed a + NBATeam.seed b = 9)%Z ∧
       (NBATeam.seed a < NBATeam.seed b)%Z) ∧
  (∀ t team, nbaTeams !! t = Some team →
     NBATeam.id team = t ∧
     ∃ k m s,
       initialBracket !! k = Some m ∧ round m = 1%Z ∧ slot s m = Some t ∧
       ∀ k' m' s', initialBracket !! k' = Some m' → slot s' m' = Some t →
                   k' = k ∧ s' = s).
Proof.
  split.
  - intros k m Hk Hr. matchup_cases Hk; simpl in Hr;
      first [discriminate Hr
            | eexists _, _, _, _; repeat (split; [reflexivity|]); reflexivity].
  - intros t team Ht. team_cases Ht; (split; [reflexivity|]); find_seed;
      intros k' m' s' Hk' Hs'; matchup_cases Hk'; destruct s'; simpl in Hs';
      first [discriminate Hs' | split; reflexivity].
Qed.

(** ** X9 *)

(** X9: the champion shown on the page.  After any sequence of clicks, once
    [F1] has a pick, that pick is a valid team key; [getConfettiColors]
    returns the two colours of that team followed by [#FFD700] and
    [#FFFFFF], and [championName] is the name of the team, never the
    fallback text. *)
Theorem reachable_champion_display (storedUserId : option string)
    (evs : list PageEvent) (t : string) :
  predictions (pageRun (initialPageState storedUserId) evs) !! "F1"
  = Some (Some t) →
  ∃ team,
    nbaTeams !! t = Some team ∧ isValidTeamKey (Some t) = true ∧
    getConfettiColors (pageRun (initialPageState storedUserId) evs)
    = Some [NBATeam.primaryColor team; NBATeam.secondaryColor team;
            "#FFD700"; "#FFFFFF"] ∧
    championName (pageRun (initialPageState storedUserId) evs)
    = NBATeam.name team.
Proof.
  intros HF1.
  destruct (pageInv_run _ evs (pageInv_initial storedUserId)) as (HP & _).
  destruct (HP _ _ HF1) as (t' & [= <-] & Hcont).
  destruct (contender_roster _ _ Hcont) as (team & Ht & _ & Htr & _).
  assert (hasOwnTeam t = true) as Hown.
  { unfold hasOwnTeam. apply bool_decide_eq_true_2. by eexists. }
  exists team. split; [done|].
  unfold isValidTeamKey, getConfettiColors, championName.
  by rewrite HF1, Htr, Hown, Ht.
Qed.

Lemma reachable_champion_display_witness :
  predictions (pageRun (initialPageState (Some "u1")) fullRun) !! "F1"
  = Some (Some "BOS") ∧
  ∃ team,
    nbaTeams !! "BOS" = Some team ∧ isValidTeamKey (Some "BOS") = true ∧
    getConfettiColors (pageRun (initialPageState (Some "u1")) fullRun)
    = Some [NBATeam.primaryColor team; NBATeam.secondaryColor team;
            "#FFD700"; "#FFFFFF"] ∧
    championName (pageRun (initialPageState (Some "u1")) fullRun)
    = NBATeam.name team.
Proof.
  assert (predictions (pageRun (initialPageState (Some "u1")) fullRun) !! "F1"
          = Some (Some "BOS")) as HF1 by reflexivity.
  split; [exact HF1|].
  exact (reachable_champion_display (Some "u1") fullRun "BOS" HF1).
Defined.

(** ** X10 *)

Lemma rendered_template (k : string) :
  k ∈ renderedMatchups → is_Some (initialBracket !! k).
Proof.
  unfold renderedMatchups. intros Hk.
  repeat (apply elem_of_cons in Hk as [->|Hk]; [by eexists|]).
  by apply elem_of_nil in Hk.
Qed.

Lemma teamDataOf_roster (t : string) (team : NBATeam.t) :
  nbaTeams !! t = Some team → truthy (Some t) = true →
  teamDataOf (Some t) = OwnTeam team.
Proof. intros Ht Htr. unfold teamDataOf, getTeam. by rewrite Htr, Ht. Qed.

(** X10: what the page shows.  After any sequence of clicks, for every
    matchup [k] that [PlayoffBracket] renders, with [n] its matchup in the
    derived bracket: the component shows the placeholder "Matchup TBD"
    exactly when both slots of [n] are empty; and a slot of [n] that holds a
    team [t] shows the roster entry of [t] (not the text TBD), has the style
    of a present team, is styled as selected exactly when [t] is the pick of
    [k], and a click on it calls [onTeamSelect(k, t)]. *)
Theorem reachable_view (storedUserId : option string) (evs : list PageEvent)
    (k : string) :
  k ∈ renderedMatchups →
  ∃ b n v,
    derive (predictions (pageRun (initialPageState storedUserId) evs))
    = Return b ∧
    b !! k = Some n ∧
    viewOf (pageRun (initialPageState storedUserId) evs) k = Some v ∧
    (v = MatchupTBD ↔ team1 n = None ∧ team2 n = None) ∧
    ∀ s t, slot s n = Some t →
      ∃ team sv,
        nbaTeams !! t = Some team ∧ slotView v s = Some sv ∧
        display sv = ShowTeam team ∧ present sv = true ∧
        (selected sv = true ↔
         predictions (pageRun (initialPageState storedUserId) evs) !! k
         = Some (Some t)) ∧
        Matchup_onClick n s = Some (k, t).
Proof.
  intros [m Hk]%rendered_template.
  destruct (pageInv_run _ evs (pageInv_initial storedUserId)) as (HP & _).
  set (st := pageRun (initialPageState storedUserId) evs) in *.
  set (n := propagate (predictions st) k m).
  assert (∀ s t, slot s n = Some t →
    ∃ team, nbaTeams !! t = Some team ∧ truthy (Some t) = true ∧
            teamDataOf (Some t) = OwnTeam team) as Hroster.
  { intros s t Hs. apply (derived_slot_contender _ _ _ _ _ HP Hk) in Hs.
    destruct (contender_roster _ _ Hs) as (team & Ht & _ & Htr & _).
    exists team. repeat split; try done. by apply teamDataOf_roster. }
  assert (matchupId n = k) as Hid by by destruct (template_key _ _ Hk).
  exists (derivedBracket (predictions st)), n,
    (Matchup_render n (predictions st !! k)).
  split; [apply derive_closed|].
  split; [by rewrite derivedBracket_lookup, Hk|].
  split.
  { unfold viewOf. by rewrite derive_closed, derivedBracket_lookup, Hk. }
  pose proof (Hroster at_team1) as H1. pose proof (Hroster at_team2) as H2.
  cbn [slot] in H1, H2. unfold Matchup_render, Matchup_onClick.
  destruct (team1 n) as [t1|] eqn:Ht1, (team2 n) as [t2|] eqn:Ht2.
  - destruct (H1 _ eq_refl) as (a & Ha & Htr1 & ->).
    destruct (H2 _ eq_refl) as (c & Hc & Htr2 & ->).
    cbn [truthyTeam negb andb]. split; [split; [done|by intros [? _]]|].
    intros [] t Hs; cbn [slot] in Hs; rewrite ?Ht1, ?Ht2 in Hs;
      injection Hs as <-; eexists _, _;
      (split; [eassumption|]); (split; [reflexivity|]);
      cbn [display present selected displayOf slot]; rewrite ?Ht1, ?Ht2, ?Hid;
      (split; [reflexivity|]); (split; [assumption|]);
      (split; [|by rewrite ?Htr1, ?Htr2]);
      unfold isSelected; destruct (predictions st !! k) as [w|];
      rewrite ?bool_decide_eq_true; split; congruence.
  - destruct (H1 _ eq_refl) as (a & Ha & Htr1 & ->).
    cbn [teamDataOf truthyTeam negb andb].
    split; [split; [done|by intros [? _]]|].
    intros [] t Hs; cbn [slot] in Hs; rewrite ?Ht1, ?Ht2 in Hs;
      [|discriminate Hs].
    injection Hs as <-. eexists _, _.
    (split; [eassumption|]); (split; [reflexivity|]).
    cbn [display present selected displayOf slot]. rewrite ?Ht1, ?Hid.
    (split; [reflexivity|]); (split; [assumption|]).
    split; [|by rewrite Htr1].
    unfold isSelected; destruct (predictions st !! k) as [w|];
      rewrite ?bool_decide_eq_true; split; congruence.
  - destruct (H2 _ eq_refl) as (c & Hc & Htr2 & ->).
    cbn [teamDataOf truthyTeam negb andb].
    split; [split; [done|by intros [_ ?]]|].
    intros [] t Hs; cbn [slot] in Hs; rewrite ?Ht1, ?Ht2 in Hs;
      [discriminate Hs|].
    injection Hs as <-. eexists _, _.
    (split; [eassumption|]); (split; [reflexivity|]).
    cbn [display present selected displayOf slot]. rewrite ?Ht2, ?Hid.
    (split; [reflexivity|]); (split; [assumption|]).
    split; [|by rewrite Htr2].
    unfold isSelected; destruct (predictions st !! k) as [w|];
      rewrite ?bool_decide_eq_true; split; congruence.
  - cbn [teamDataOf truthyTeam negb andb]. split; [done|].
    intros [] t Hs; cbn [slot] in Hs; rewrite ?Ht1, ?Ht2 in Hs;
      discriminate Hs.
Qed.

Lemma reachable_view_witness :
  "E5" ∈ renderedMatchups ∧
  ∃ b n v,
    derive (predictions state_after_E1) = Return b ∧
    b !! "E5" = Some n ∧
    viewOf state_after_E1 "E5" = Some v ∧
    (v = MatchupTBD ↔ team1 n = None ∧ team2 n = None) ∧
    ∀ s t, slot s n = Some t →
      ∃ team sv,
        nbaTeams !! t = Some team ∧ slotView v s = Some sv ∧
        display sv = ShowTeam team ∧ present sv = true ∧
        (selected sv = true ↔ predictions state_after_E1 !! "E5"
                              = Some (Some t)) ∧
        Matchup_onClick n s = Some ("E5", t).
Proof.
  assert ("E5" ∈ renderedMatchups) as Hin
    by (unfold renderedMatchups; elem_of_list).
  split; [exact Hin|].
  exact (reachable_view (Some "u1") [ClickTeam "E1" at_team2] "E5" Hin).
Defined.

(** After the click on [MIA] in [E1], the card of [E5] shows Miami in its
    first slot and TBD in the second. *)
Example view_after_E1 :
  viewOf state_after_E1 "E5"
  = Some (MatchupCard
            (mkSlotView
               (ShowTeam (NBATeam.mk "MIA" "Miami Heat" East 8 "#98002E"
                            "#F9A01B"))
               true false)
            (mkSlotView ShowTBD false false)) ∧
  viewOf state_after_E1 "E7" = Some MatchupTBD.
Proof. split; reflexivity. Qed.

(** ** X11 *)

(** X11: a new pick upstream leaves the pick downstream stale.  Let [M] feed
    slot [sp] of [N], let [t] be the pick recorded for [N], and let the other
    slot of [N] not hold [t].  After [handlePredictionChange] records for [M]
    a non-empty team other than [t], the pick of [N] is still [t] although
    neither slot of [N] holds [t] any more; and when [t] is non-empty the
    slot that [N] feeds still holds [t]. *)
Theorem repick_leaves_stale_pick (P : Predictions) (M : string)
    (m : MatchupData) (N : string) (sp : Position) (t t' : string) :
  initialBracket !! M = Some m →
  nextMatchup m = Some N → winnerPosition m = Some sp →
  P !! N = Some (Some t) → t' ≠ "" → t' ≠ t →
  (∃ b n, derive P = Return b ∧ b !! N = Some n ∧
          slot (otherPosition sp) n ≠ Some t) →
  handlePredictionChange P M t' !! N = Some (Some t) ∧
  ∃ b' n',
    derive (handlePredictionChange P M t') = Return b' ∧
    b' !! N = Some n' ∧
    slot sp n' = Some t' ∧ team1 n' ≠ Some t ∧ team2 n' ≠ Some t ∧
    (t ≠ "" →
     ∀ mN N2 sp2, initialBracket !! N = Some mN →
                  nextMatchup mN = Some N2 → winnerPosition mN = Some sp2 →
                  ∃ n2, b' !! N2 = Some n2 ∧ slot sp2 n2 = Some t).
Proof.
  intros HM HN Hsp HPN Ht' Hne (b & n & Hb%derive_Return & Hn & Hother).
  subst b. unfold handlePredictionChange.
  destruct (next_in_template _ _ _ HM HN) as (_ & n0 & Hn0 & Hr & _).
  assert (M ≠ N) as HMN.
  { intros ->. assert (n0 = m) as -> by congruence. lia. }
  rewrite derivedBracket_lookup, Hn0 in Hn. injection Hn as <-.
  split; [by rewrite lookup_insert_ne|].
  pose proof (feeder_complete _ _ _ _ HM HN Hsp) as Hfeeder.
  apply truthy_nonempty in Ht'.
  set (P' := <[M := Some t']> P).
  assert (slot sp (propagate P' N n0) = Some t') as Hnew.
  { rewrite slot_propagate. by apply propagated_insert_eq. }
  assert (slot (otherPosition sp) (propagate P' N n0) ≠ Some t) as Hold.
  { unfold P'. rewrite slot_propagate, propagated_insert_ne.
    - by rewrite <-slot_propagate.
    - intros (m' & Hm' & _ & Hsp')%feeder_sound.
      assert (m' = m) as -> by congruence. destruct sp; simpl in *; congruence. }
  exists (derivedBracket P'), (propagate P' N n0).
  split; [apply derive_closed|].
  split; [by rewrite derivedBracket_lookup, Hn0|].
  split; [done|].
  split; [|split].
  - destruct sp; cbn [slot otherPosition] in *; congruence.
  - destruct sp; cbn [slot otherPosition] in *; congruence.
  - intros Ht mN N2 sp2 HmN HN2 Hsp2.
    destruct (next_in_template _ _ _ HmN HN2) as (_ & n2 & Hn2 & _).
    exists (propagate P' N2 n2).
    split; [by rewrite derivedBracket_lookup, Hn2|].
    rewrite slot_propagate. unfold propagated.
    rewrite (feeder_complete _ _ _ _ HmN HN2 Hsp2).
    unfold P'. rewrite lookup_insert_ne by done. rewrite HPN.
    apply truthy_nonempty in Ht. by rewrite Ht.
Qed.

Lemma repick_leaves_stale_pick_witness :
  initialBracket !! "E1" = Some matchup_E1 ∧
  nextMatchup matchup_E1 = Some "E5" ∧
  winnerPosition matchup_E1 = Some at_team1 ∧
  picks_repicked !! "E5" = Some (Some "BOS") ∧
  "MIA" ≠ "" ∧ "MIA" ≠ "BOS" ∧
  handlePredictionChange picks_repicked "E1" "MIA" !! "E5"
  = Some (Some "BOS") ∧
  ∃ b' n',
    derive (handlePredictionChange picks_repicked "E1" "MIA") = Return b' ∧
    b' !! "E5" = Some n' ∧
    slot at_team1 n' = Some "MIA" ∧
    team1 n' ≠ Some "BOS" ∧ team2 n' ≠ Some "BOS" ∧
    ("BOS" ≠ "" →
     ∀ mN N2 sp2, initialBracket !! "E5" = Some mN →
                  nextMatchup mN = Some N2 → winnerPosition mN = Some sp2 →
                  ∃ n2, b' !! N2 = Some n2 ∧ slot sp2 n2 = Some "BOS").
Proof.
  assert (∃ b n, derive picks_repicked = Return b ∧ b !! "E5" = Some n ∧
                 slot (otherPosition at_team1) n ≠ Some "BOS") as Hother.
  { eexists _, _. split; [apply derive_closed|]. split; [reflexivity|].
    discriminate. }
  do 3 (split; [reflexivity|]). split; [reflexivity|].
  split; [discriminate|]. split; [discriminate|].
  apply (repick_leaves_stale_pick picks_repicked "E1" matchup_E1 "E5"
           at_team1 "BOS" "MIA");
    first [reflexivity | discriminate | exact Hother].
Defined.

(** ** X12 *)

(** A slot that no matchup feeds is a seeded slot of round 1. *)
Lemma unfed_slot_seeded (k : string) (m : MatchupData) (s : Position) :
  initialBracket !! k = Some m → feeder k s = None →
  ∃ t, slot s m = Some t ∧ t ≠ "".
Proof.
  intros Hk Hf. matchup_cases Hk; destruct s; vm_compute in Hf;
    first [discriminate Hf | by eexists].
Qed.

(** X12: complete predictions fill the bracket.  If every matchup of the
    template that has a next matchup has a non-empty pick, the derivation
    returns a bracket in which no slot of any matchup is empty. *)
Theorem complete_predictions_fill_bracket (P : Predictions) :
  (∀ k m, initialBracket !! k = Some m → nextMatchup m ≠ None →
          ∃ t, P !! k = Some (Some t) ∧ t ≠ "") →
  ∃ b, derive P = Return b ∧
       (∀ k, is_Some (b !! k) ↔ is_Some (initialBracket !! k)) ∧
       ∀ k n s, b !! k = Some n → ∃ t, slot s n = Some t ∧ t ≠ "".
Proof.
  intros Hfull. exists (derivedBracket P). split; [apply derive_closed|].
  split.
  { intros k. rewrite derivedBracket_lookup.
    destruct (initialBracket !! k); split; intros [? ?]; by eauto. }
  intros k n s. rewrite derivedBracket_lookup.
  destruct (initialBracket !! k) as [m|] eqn:Hk; [|done].
  intros [= <-]. rewrite slot_propagate. unfold propagated.
  destruct (feeder k s) as [M|] eqn:HM; [|by eapply unfed_slot_seeded].
  apply feeder_sound in HM as (m' & Hm' & HN & _).
  destruct (Hfull M m' Hm') as (t & -> & Ht); [congruence|].
  exists t. apply truthy_nonempty in Ht as Htr. by rewrite Htr.
Qed.

Lemma complete_predictions_fill_bracket_witness :
  (∀ k m, initialBracket !! k = Some m → nextMatchup m ≠ None →
          ∃ t, predictions (pageRun (initialPageState (Some "u1")) fullRun)
               !! k = Some (Some t) ∧ t ≠ "") ∧
  ∃ b, derive (predictions (pageRun (initialPageState (Some "u1")) fullRun))
       = Return b ∧
       (∀ k, is_Some (b !! k) ↔ is_Some (initialBracket !! k)) ∧
       ∀ k n s, b !! k = Some n → ∃ t, slot s n = Some t ∧ t ≠ "".
Proof.
  assert (∀ k m, initialBracket !! k = Some m → nextMatchup m ≠ None →
    ∃ t, predictions (pageRun (initialPageState (Some "u1")) fullRun) !! k
         = Some (Some t) ∧ t ≠ "") as Hfull.
  { intros k m Hk _.
    matchup_cases Hk;
      first [ exists "BOS"; split; [reflexivity|discriminate]
            | exists "CLE"; split; [reflexivity|discriminate]
            | exists "MIL"; split; [reflexivity|discriminate]
            | exists "NYK"; split; [reflexivity|discriminate]
            | exists "OKC"; split; [reflexivity|discriminate]
            | exists "LAC"; split; [reflexivity|discriminate]
            | exists "MIN"; split; [reflexivity|discriminate]
            | exists "DEN"; split; [reflexivity|discriminate] ]. }
  split; [exact Hfull|].
  exact (complete_predictions_fill_bracket _ Hfull).
Defined.
